(** * hexcrc: checksum validation of Intel HEX record files

    A shallow embedding of [hexcrc.c] and the properties of its scanner,
    [check_file]: a four-state automaton that reads a stream one character at
    a time, decodes pairs of uppercase hexadecimal digits and checks that the
    bytes of every record sum to zero modulo 256. *)

From Stdlib Require Import ZArith Ascii String List Bool Lia.
Import ListNotations.
Local Open Scope Z_scope.

(** ** C integer types

    [int] is 32 bits wide; [uint8_t], [uint64_t] and [size_t] (LP64) are
    unsigned and wrap around.  Overflow of a signed [int] is undefined in C:
    the embedding gives it an outcome of its own, [Undefined], instead of
    choosing a result for it. *)
Module C.

Definition INT_MAX : Z := 2147483647.
Definition EOF : Z := -1.

Definition uint8_t (x : Z) : Z := x mod 256.
Definition uint64_t (x : Z) : Z := x mod 18446744073709551616.
Definition size_t (x : Z) : Z := x mod 18446744073709551616.

(** Conversion of an out-of-range value to [int]: implementation-defined,
    reduction modulo 2^32 into the signed range on the usual compilers. *)
Definition int (x : Z) : Z := (x + 2147483648) mod 4294967296 - 2147483648.

(** The value of a character constant, and of the [unsigned char] that
    [fgetc] returns as an [int]. *)
Definition chr (a : ascii) : Z := Z.of_N (N_of_ascii a).

Definition newline : ascii := ascii_of_N 10.

(** [<ctype.h>] in the "C" locale, which is in force since the program never
    calls [setlocale]. *)
Definition isdigit (c : Z) : bool := (chr "0" <=? c) && (c <=? chr "9").
Definition isupper (c : Z) : bool := (chr "A" <=? c) && (c <=? chr "Z").
Definition islower (c : Z) : bool := (chr "a" <=? c) && (c <=? chr "z").
Definition isalpha (c : Z) : bool := isupper c || islower c.
Definition isalnum (c : Z) : bool := isalpha c || isdigit c.
Definition isxdigit (c : Z) : bool :=
  isdigit c
  || ((chr "A" <=? c) && (c <=? chr "F"))
  || ((chr "a" <=? c) && (c <=? chr "f")).

End C.
Import C.

(** ** The program *)

(** [enum State]: every case out of these states is an error. *)
Inductive State : Set :=
| COMMENT
| NEW_RECORD
| BYTE_START
| BYTE_END.

(** [is_hex_char]: the character is a hexadecimal digit, and uppercase when
    it is a letter. *)
Definition is_hex_char (c : Z) : bool :=
  if negb (isxdigit c) then false
  else if isalpha c && islower c then false
  else true.

(** [hex_to_dec]: the value of a hexadecimal digit; [None] stands for the
    call of [abort()]. *)
Definition hex_to_dec (c : Z) : option Z :=
  if (c >=? chr "0") && (c <=? chr "9") then Some (c - chr "0")
  else if (c >=? chr "A") && (c <=? chr "F") then Some (c - chr "A" + 10)
  else None.

(** What the program writes to [stderr] before it returns [false]. *)
Inductive Stderr : Set :=
| ErrorAt (msg : string) (line col : Z) (invalid_input : Z)
    (* ERROR at line %i:%i: %s   INVALID INPUT: '%c' *)
| EmptyFile        (* ERROR: empty file. *)
| NoRecordFound.   (* ERROR: No record found. *)

(** [log_error]: [%c] converts its [int] argument to [unsigned char]. *)
Definition log_error (msg : string) (line col input : Z) : Stderr :=
  ErrorAt msg line col (uint8_t input).

(** [check_crc]: the least significant byte is zero. *)
Definition check_crc (recsum : Z) : bool :=
  let lsb := uint8_t (Z.land recsum 255) in
  lsb =? 0.

(** The local variables of [check_file] that live across iterations. *)
Record Locals : Set := mkLocals {
  line : Z;        (* int: number of line *)
  col : Z;         (* int: column number *)
  byte : Z;        (* uint8_t: 2 hex digit representation *)
  recordSum : Z;   (* uint64_t: collect the sum of bytes *)
  cnt : Z;         (* size_t: record counter *)
  state : State
}.

Definition set_line (v : Z) (l : Locals) : Locals :=
  mkLocals v (col l) (byte l) (recordSum l) (cnt l) (state l).
Definition set_col (v : Z) (l : Locals) : Locals :=
  mkLocals (line l) v (byte l) (recordSum l) (cnt l) (state l).
Definition set_byte (v : Z) (l : Locals) : Locals :=
  mkLocals (line l) (col l) v (recordSum l) (cnt l) (state l).
Definition set_recordSum (v : Z) (l : Locals) : Locals :=
  mkLocals (line l) (col l) (byte l) v (cnt l) (state l).
Definition set_cnt (v : Z) (l : Locals) : Locals :=
  mkLocals (line l) (col l) (byte l) (recordSum l) v (state l).
Definition set_state (v : State) (l : Locals) : Locals :=
  mkLocals (line l) (col l) (byte l) (recordSum l) (cnt l) v.

Definition initial : Locals := mkLocals 1 1 0 0 0 COMMENT.

(** *** A monad for the calls of [hex_to_dec]

    A computation yields the arguments [hex_to_dec] was called with, in
    order, and a value unless one of the calls reached [abort()]. *)
Module Calls.

Definition M (A : Type) : Type := (list Z * option A)%type.

Definition ret {A : Type} (a : A) : M A := ([], Some a).

Definition bind {A B : Type} (m : M A) (f : A -> M B) : M B :=
  match m with
  | (t, None) => (t, None)
  | (t, Some a) => let (t', r) := f a in (t ++ t', r)
  end.

Definition call_hex_to_dec (c : Z) : M Z := ([c], hex_to_dec c).

End Calls.
Import Calls.

Notation "x <- m ;; k" := (bind m (fun x => k))
  (at level 61, m at next level, right associativity).

(** How one pass through the [switch] ends: at a [break], or at a
    [return false] after a message was written. *)
Inductive Flow : Set :=
| Break (l : Locals)
| Return (l : Locals) (e : Stderr).

(** The [switch (state)] of the loop body: the finite state automaton. *)
Definition fsa (l : Locals) (input : Z) : M Flow :=
  match state l with
  | COMMENT =>
      if input =? chr ":" then
        let l := set_cnt (size_t (cnt l + 1)) l in
        ret (Break (set_state NEW_RECORD l))
      else ret (Break l)
  | NEW_RECORD =>
      if is_hex_char input then
        let l := set_recordSum 0 l in
        let l := set_byte 0 l in
        v <- call_hex_to_dec input ;;
        let l := set_byte (uint8_t (Z.shiftl v 4)) l in
        ret (Break (set_state BYTE_START l))
      else
        ret (Return l (log_error "Expected uppercase hex digit."
                         (line l) (col l) input))
  | BYTE_START =>
      if is_hex_char input then
        v <- call_hex_to_dec input ;;
        let l := set_byte (uint8_t (Z.lor (byte l) v)) l in
        ret (Break (set_state BYTE_END l))
      else
        ret (Return l (log_error "Expected uppercase hex digit."
                         (line l) (col l) input))
  | BYTE_END =>
      let l := set_recordSum (uint64_t (recordSum l + byte l)) l in
      f <- (if is_hex_char input then
              let l := set_byte 0 l in
              v <- call_hex_to_dec input ;;
              let l := set_byte (uint8_t (Z.shiftl v 4)) l in
              ret (Break (set_state BYTE_START l))
            else if isalnum input then
              ret (Return l (log_error "Expected uppercase hex digit."
                               (line l) (col l) input))
            else if negb (check_crc (recordSum l)) then
              ret (Return l (log_error "Wrong CRC."
                               (line l) (col l) (int (recordSum l))))
            else ret (Break (set_state COMMENT l))) ;;
      match f with
      | Return _ _ => ret f
      | Break l =>
          (* overwrite the state = COMMENT in case of : *)
          if input =? chr ":" then ret (Break (set_state NEW_RECORD l))
          else ret (Break l)
      end
  end.

(** "update context information": [col++], then a new line after ['\n'].
    [None] when an increment would leave the range of [int]. *)
Definition update_context (l : Locals) (input : Z) : option Locals :=
  if col l <? INT_MAX then
    let l := set_col (col l + 1) l in
    if input =? chr newline then
      if line l <? INT_MAX then
        let l := set_line (line l + 1) l in
        Some (set_col 1 l)
      else None
    else Some l
  else None.

(** How the [while] loop is left. *)
Inductive Exit : Set :=
| EndOfFile (l : Locals)            (* fgetc returned EOF *)
| Returned (l : Locals) (e : Stderr) (* return false inside the loop *)
| Abort                             (* abort() *)
| Overflow.                         (* signed overflow of line or col *)

(** [while ((input = fgetc(file)) != EOF)]: the file is the list of the
    characters still to be read. *)
Fixpoint while_input (l : Locals) (file : list ascii) : list Z * Exit :=
  match file with
  | [] => ([], EndOfFile l)
  | a :: file' =>
      let input := chr a in
      match fsa l input with
      | (t, None) => (t, Abort)
      | (t, Some (Return l' e)) => (t, Returned l' e)
      | (t, Some (Break l')) =>
          match update_context l' input with
          | None => (t, Overflow)
          | Some l'' =>
              let (t', x) := while_input l'' file' in (t ++ t', x)
          end
      end
  end.

(** What a call of [check_file] amounts to. *)
Inductive Outcome : Set :=
| ReturnTrue
| ReturnFalse (e : Stderr)
| Aborted
| Undefined.

(** The checks after the loop. *)
Definition at_eof (l : Locals) : Outcome :=
  if (line l =? 1) && (col l =? 1) then ReturnFalse EmptyFile
  else if cnt l =? 0 then ReturnFalse NoRecordFound
  else ReturnTrue.

Definition finish (x : Exit) : Outcome :=
  match x with
  | EndOfFile l => at_eof l
  | Returned _ e => ReturnFalse e
  | Abort => Aborted
  | Overflow => Undefined
  end.

(** [check_file]: verify the CRC of each record in the file. *)
Definition check_file (file : list ascii) : Outcome :=
  finish (snd (while_input initial file)).

(** The arguments of the calls of [hex_to_dec] during [check_file]. *)
Definition hex_to_dec_calls (file : list ascii) : list Z :=
  fst (while_input initial file).

(** The exit of the loop, and the variables when the loop is left. *)
Definition scan (l : Locals) (file : list ascii) : Exit :=
  snd (while_input l file).

Definition text (s : string) : list ascii := list_ascii_of_string s.

(** *** The loop where signed overflow wraps around

    The same loop on a build where an increment of a signed [int] that
    overflows wraps around (two's complement, as with [-fwrapv]) instead of
    being left undefined: [col++] and [line++] go through [int]. *)
Definition update_context_wrap (l : Locals) (input : Z) : Locals :=
  let l := set_col (int (col l + 1)) l in
  if input =? chr newline then
    let l := set_line (int (line l + 1)) l in
    set_col 1 l
  else l.

Fixpoint while_input_wrap (l : Locals) (file : list ascii)
    : list Z * Exit :=
  match file with
  | [] => ([], EndOfFile l)
  | a :: file' =>
      let input := chr a in
      match fsa l input with
      | (t, None) => (t, Abort)
      | (t, Some (Return l' e)) => (t, Returned l' e)
      | (t, Some (Break l')) =>
          let (t', x) :=
            while_input_wrap (update_context_wrap l' input) file' in
          (t ++ t', x)
      end
  end.

Definition check_file_wrap (file : list ascii) : Outcome :=
  finish (snd (while_input_wrap initial file)).

(** What [main] writes to [stderr]: the usage line with [argv[0]], the
    [perror] line with the file name, or the message of [check_file]. *)
Inductive Message : Set :=
| Usage (argv0 : string)
| Perror (filename : string)
| Logged (e : Stderr).

(** How the program ends: with the value that [main] returns and what was
    written to [stderr], by [abort()], or without a defined behaviour. *)
Inductive Status : Set :=
| Returns (rc : Z) (err : option Message)
| Killed
| NoBehaviour.

(** [main]: [argv] holds the [argc] arguments, and [fopen] gives the
    characters that [fgetc] will read from a file that can be opened for
    reading.  With [argc = 0] the usage line prints the null [argv[0]]
    with [%s], which is undefined. *)
Definition main (argv : list string)
    (fopen : string -> option (list ascii)) : Status :=
  match argv with
  | [_; filename] =>
      match fopen filename with
      | None => Returns 1 (Some (Perror filename))
      | Some file =>
          match check_file file with
          | ReturnTrue => Returns 0 None
          | ReturnFalse e => Returns 1 (Some (Logged e))
          | Aborted => Killed
          | Undefined => NoBehaviour
          end
      end
  | argv0 :: _ => Returns 1 (Some (Usage argv0))
  | [] => NoBehaviour
  end.

(** ** Specification-side notions *)

(** The value of a digit as the specification gives it: ['0'..'9'] are 0 to
    9 and ['A'..'F'] are 10 to 15. *)
Definition digit_value (a : ascii) : Z :=
  if isdigit (chr a) then chr a - chr "0" else chr a - chr "A" + 10.

Definition is_valid_digit (a : ascii) : Prop :=
  chr "0" <= chr a <= chr "9" \/ chr "A" <= chr a <= chr "F".

(** A pair of digits, the byte it denotes, and the characters and the sum of
    the bytes of a sequence of pairs. *)
Definition pair_value (p : ascii * ascii) : Z :=
  16 * digit_value (fst p) + digit_value (snd p).

Definition valid_pair (p : ascii * ascii) : Prop :=
  is_valid_digit (fst p) /\ is_valid_digit (snd p).

Fixpoint digits (ps : list (ascii * ascii)) : list ascii :=
  match ps with
  | [] => []
  | (h, lo) :: ps' => h :: lo :: digits ps'
  end.

Fixpoint byte_sum (ps : list (ascii * ascii)) : Z :=
  match ps with
  | [] => 0
  | p :: ps' => pair_value p + byte_sum ps'
  end.

(** The 1-based line and column of the character that follows the text
    [pre], counted from the position [p] of the first character of [pre]. *)
Fixpoint position_after (p : Z * Z) (pre : list ascii) : Z * Z :=
  match pre with
  | [] => p
  | a :: pre' =>
      position_after
        (if Ascii.eqb a newline then (fst p + 1, 1) else (fst p, snd p + 1))
        pre'
  end.

Definition position_of (pre : list ascii) : Z * Z := position_after (1, 1) pre.

(** The positions of the text [s], which starts at position [p], fit in an
    [int] as the program counts them: every character stands in a column
    below [INT_MAX], and every newline on a line below [INT_MAX]. *)
Fixpoint fits (p : Z * Z) (s : list ascii) : bool :=
  match s with
  | [] => true
  | a :: s' =>
      (snd p <? INT_MAX)
      && (if Ascii.eqb a newline
          then (fst p <? INT_MAX) && fits (fst p + 1, 1) s'
          else fits (fst p, snd p + 1) s')
  end.

Definition positions_fit (file : list ascii) : bool := fits (1, 1) file.

(** A sequence of records, each one written as [':'], its pairs of digits
    and the text that separates it from the next record. *)
Fixpoint records (rs : list (list (ascii * ascii) * list ascii))
    : list ascii :=
  match rs with
  | [] => []
  | (ps, sep) :: rs' => ":"%char :: digits ps ++ sep ++ records rs'
  end.

(** A separating text has no [':'] and, when it is not empty, starts with a
    character that is neither a letter nor a digit. *)
Definition separator (sep : list ascii) : Prop :=
  ~ In ":"%char sep
  /\ match sep with
     | [] => True
     | t :: _ => isalnum (chr t) = false
     end.

(** At least one pair of uppercase digits, with bytes that sum to 0 modulo
    256; and a record of such pairs with its separating text. *)
Definition good_pairs (ps : list (ascii * ascii)) : Prop :=
  ps <> [] /\ Forall valid_pair ps /\ byte_sum ps mod 256 = 0.

Definition good_record (r : list (ascii * ascii) * list ascii) : Prop :=
  good_pairs (fst r) /\ separator (snd r).

(** One record on each line. *)
Definition hex_lines (rs : list (list (ascii * ascii))) : list ascii :=
  records (map (fun ps => (ps, [newline])) rs).

(** The start of a record that the end of the stream cuts short: nothing,
    or [':'], some pairs of uppercase digits (with any sum) and possibly
    the first digit of one more pair. *)
Definition unfinished (tail : list ascii) : Prop :=
  tail = []
  \/ exists ps half,
       tail = ":"%char :: digits ps ++ half /\ Forall valid_pair ps
       /\ (half = [] \/ exists h, half = [h] /\ is_valid_digit h).

(** The texts that [check_file] accepts: a text without [':'], records
    with a right sum, and possibly the start of one more record; with at
    least one [':'] in all. *)
Definition accepted_text (file : list ascii) : Prop :=
  exists pre rs tail,
    file = pre ++ records rs ++ tail
    /\ ~ In ":"%char pre /\ Forall good_record rs /\ unfinished tail
    /\ (rs <> [] \/ tail <> []).

(** A character that [hex_to_dec] decodes. *)
Definition decodable (c : Z) : Prop :=
  is_hex_char c = true /\ exists v, hex_to_dec c = Some v /\ 0 <= v <= 15.

(** ** Invariants of the loop *)

(** The position stays in the range of [int]; [cnt] is at most the number
    of characters read, which the position bounds, so that it never wraps;
    and a record is being read only after one was counted. *)
Definition well_formed (l : Locals) : Prop :=
  1 <= line l <= INT_MAX /\ 1 <= col l <= INT_MAX
  /\ 0 <= cnt l <= (line l - 1) * INT_MAX + (col l - 1)
  /\ (state l <> COMMENT -> 1 <= cnt l).

(** At least one character was read. *)
Definition moved (l : Locals) : Prop := 2 <= line l \/ 2 <= col l.

(** What was read, by the state of the automaton: the records that were
    closed, and the part of the current record with the sum of its bytes
    in [recordSum] and [byte]. *)
Definition parsed (s : list ascii) (st : State) (sum b : Z) : Prop :=
  exists pre rs,
    ~ In ":"%char pre /\ Forall good_record rs
    /\ match st with
       | COMMENT =>
           s = pre ++ records rs
           /\ (rs = [] \/ exists rs0 ps t junk, rs = rs0 ++ [(ps, t :: junk)])
       | NEW_RECORD => s = pre ++ records rs ++ [":"%char]
       | BYTE_START =>
           exists ps h,
             s = pre ++ records rs ++ ":"%char :: digits ps ++ [h]
             /\ Forall valid_pair ps /\ is_valid_digit h
             /\ uint64_t sum = uint64_t (byte_sum ps)
             /\ b = uint8_t (Z.shiftl (digit_value h) 4)
       | BYTE_END =>
           exists ps,
             s = pre ++ records rs ++ ":"%char :: digits ps
             /\ ps <> [] /\ Forall valid_pair ps
             /\ uint64_t (sum + b) = uint64_t (byte_sum ps)
       end.

(** Between two records: in a comment, or after the last pair of a record
    whose sum, with the pending byte, is 0 modulo 256. *)
Definition ready (l : Locals) : Prop :=
  state l = COMMENT
  \/ (state l = BYTE_END /\ uint64_t (recordSum l + byte l) mod 256 = 0).

(** ** Tactics *)

Ltac char_values :=
  change (chr "0") with 48 in *; change (chr "9") with 57 in *;
  change (chr "A") with 65 in *; change (chr "F") with 70 in *;
  change (chr "Z") with 90 in *; change (chr "a") with 97 in *;
  change (chr "f") with 102 in *; change (chr "z") with 122 in *;
  change (chr ":") with 58 in *; change (chr newline) with 10 in *.

Ltac split_tests :=
  repeat match goal with
         | |- context [?a <=? ?b] => destruct (Z.leb_spec a b)
         | |- context [?a >=? ?b] => rewrite (Z.geb_leb a b)
         | |- context [?a <? ?b] => destruct (Z.ltb_spec a b)
         | |- context [?a =? ?b] => destruct (Z.eqb_spec a b)
         end.

Ltac ctype :=
  unfold is_hex_char, hex_to_dec, isxdigit, isalnum, isalpha, isupper,
    islower, isdigit in *;
  char_values; split_tests; simpl in *;
  try reflexivity; try discriminate; try lia; try (f_equal; lia).

Ltac fields := cbn [line col byte recordSum cnt state fst snd].

Ltac valid_pairs :=
  repeat first [ apply Forall_nil | apply Forall_cons ];
  split; unfold is_valid_digit; cbn; lia.

(** ** Characters *)

Lemma chr_range (a : ascii) : 0 <= chr a <= 255.
Proof.
  unfold chr. pose proof (N_ascii_bounded a). lia.
Qed.

Lemma chr_inj (a b : ascii) : chr a = chr b -> a = b.
Proof.
  unfold chr. intros H. apply N2Z.inj in H.
  rewrite <- (ascii_N_embedding a), <- (ascii_N_embedding b). now rewrite H.
Qed.

Lemma chr_newline (a : ascii) : (chr a =? chr newline) = Ascii.eqb a newline.
Proof.
  destruct (Ascii.eqb_spec a newline) as [-> | N].
  - apply Z.eqb_refl.
  - apply Z.eqb_neq. intros E. apply N. now apply chr_inj.
Qed.

Lemma is_hex_char_spec (c : Z) :
  is_hex_char c = true
  <-> (chr "0" <= c <= chr "9" \/ chr "A" <= c <= chr "F").
Proof.
  split.
  - intros H. revert H. ctype.
  - intros H. ctype.
Qed.

Lemma is_hex_char_valid (a : ascii) :
  is_valid_digit a -> is_hex_char (chr a) = true.
Proof.
  intros H. now apply is_hex_char_spec.
Qed.

Lemma hex_to_dec_valid (a : ascii) :
  is_valid_digit a -> hex_to_dec (chr a) = Some (digit_value a).
Proof.
  unfold is_valid_digit, digit_value. generalize (chr a). intros c H. ctype.
Qed.

Lemma digit_value_range (a : ascii) :
  is_valid_digit a -> 0 <= digit_value a <= 15.
Proof.
  unfold is_valid_digit, digit_value. generalize (chr a). intros c H.
  ctype.
Qed.

Lemma valid_digit_not_colon (a : ascii) :
  is_valid_digit a -> (chr a =? chr ":") = false.
Proof.
  unfold is_valid_digit. intros H. char_values. apply Z.eqb_neq. lia.
Qed.

Lemma valid_digit_not_newline (a : ascii) :
  is_valid_digit a -> (chr a =? chr newline) = false.
Proof.
  unfold is_valid_digit. intros H. char_values. apply Z.eqb_neq. lia.
Qed.

Lemma hex_to_dec_range (c v : Z) : hex_to_dec c = Some v -> 0 <= v <= 15.
Proof.
  unfold hex_to_dec. char_values. rewrite !Z.geb_leb.
  destruct (48 <=? c) eqn:A, (c <=? 57) eqn:B; simpl;
    try (intros [= <-]; lia);
    destruct (65 <=? c) eqn:D, (c <=? 70) eqn:E; simpl;
    try (intros [= <-]; lia); try discriminate.
Qed.

Lemma hex_to_dec_is_hex_char (c : Z) :
  is_hex_char c = true -> exists v, hex_to_dec c = Some v.
Proof.
  intros H. apply is_hex_char_spec in H. unfold hex_to_dec. char_values.
  rewrite !Z.geb_leb.
  destruct (Z.leb_spec 48 c), (Z.leb_spec c 57); simpl; eauto;
    destruct (Z.leb_spec 65 c), (Z.leb_spec c 70); simpl; eauto; lia.
Qed.

(** A high and a low digit make the byte of the pair. *)
Lemma byte_of_nibbles (h lo : Z) :
  0 <= h <= 15 -> 0 <= lo <= 15 ->
  uint8_t (Z.lor (uint8_t (Z.shiftl h 4)) lo) = 16 * h + lo.
Proof.
  intros Hh Hl.
  assert (Eh : h = 0 \/ h = 1 \/ h = 2 \/ h = 3 \/ h = 4 \/ h = 5 \/ h = 6
               \/ h = 7 \/ h = 8 \/ h = 9 \/ h = 10 \/ h = 11 \/ h = 12
               \/ h = 13 \/ h = 14 \/ h = 15) by lia.
  assert (El : lo = 0 \/ lo = 1 \/ lo = 2 \/ lo = 3 \/ lo = 4 \/ lo = 5
               \/ lo = 6 \/ lo = 7 \/ lo = 8 \/ lo = 9 \/ lo = 10 \/ lo = 11
               \/ lo = 12 \/ lo = 13 \/ lo = 14 \/ lo = 15) by lia.
  clear Hh Hl.
  repeat (destruct Eh as [-> | Eh]); try subst h;
    repeat (destruct El as [-> | El]); try subst lo; reflexivity.
Qed.

Lemma pair_value_range (p : ascii * ascii) :
  valid_pair p -> 0 <= pair_value p <= 255.
Proof.
  intros [H1 H2]. unfold pair_value.
  pose proof (digit_value_range _ H1). pose proof (digit_value_range _ H2).
  lia.
Qed.

(** The test of [check_crc] is a test of the sum modulo 256. *)
Lemma check_crc_mod (s : Z) : check_crc s = (s mod 256 =? 0).
Proof.
  unfold check_crc, uint8_t. change 255 with (Z.ones 8).
  rewrite Z.land_ones by lia. change (2 ^ 8) with 256.
  now rewrite Z.mod_mod by lia.
Qed.

Lemma uint64_mod_256 (s : Z) : uint64_t s mod 256 = s mod 256.
Proof.
  unfold uint64_t.
  change 18446744073709551616 with (256 * 72057594037927936).
  rewrite Z.rem_mul_r by lia.
  rewrite Z.add_mod, Z.mod_mod by lia.
  rewrite (Z.mul_comm 256), Z.mod_mul by lia.
  rewrite Z.add_0_r. now rewrite Z.mod_mod by lia.
Qed.

Lemma uint8_int (s : Z) : uint8_t (int s) = s mod 256.
Proof.
  unfold uint8_t, int.
  rewrite Zminus_mod.
  change 4294967296 with (256 * 16777216).
  rewrite Z.rem_mul_r by lia.
  rewrite Z.add_mod, Z.mod_mod by lia.
  rewrite (Z.mul_comm 256 (_ mod 16777216)), Z.mod_mul by lia.
  rewrite Z.add_0_r, Z.mod_mod by lia.
  rewrite <- Zminus_mod. f_equal. lia.
Qed.

(** ** One pass through the [switch], case by case *)

Lemma fsa_COMMENT (l : Locals) (c : Z) :
  state l = COMMENT ->
  fsa l c =
  ([], Some (Break (if c =? chr ":"
                    then mkLocals (line l) (col l) (byte l) (recordSum l)
                           (size_t (cnt l + 1)) NEW_RECORD
                    else l))).
Proof.
  intros S. unfold fsa. rewrite S. now destruct (c =? chr ":").
Qed.

Lemma fsa_NEW_RECORD_digit (l : Locals) (a : ascii) :
  state l = NEW_RECORD -> is_valid_digit a ->
  fsa l (chr a) =
  ([chr a], Some (Break (mkLocals (line l) (col l)
                           (uint8_t (Z.shiftl (digit_value a) 4)) 0 (cnt l)
                           BYTE_START))).
Proof.
  intros S V. unfold fsa. rewrite S, (is_hex_char_valid a V).
  unfold bind, call_hex_to_dec. now rewrite (hex_to_dec_valid a V).
Qed.

Lemma fsa_BYTE_START_digit (l : Locals) (a : ascii) :
  state l = BYTE_START -> is_valid_digit a ->
  fsa l (chr a) =
  ([chr a], Some (Break (mkLocals (line l) (col l)
                           (uint8_t (Z.lor (byte l) (digit_value a)))
                           (recordSum l) (cnt l) BYTE_END))).
Proof.
  intros S V. unfold fsa. rewrite S, (is_hex_char_valid a V).
  unfold bind, call_hex_to_dec. now rewrite (hex_to_dec_valid a V).
Qed.

Lemma fsa_BYTE_END_digit (l : Locals) (a : ascii) :
  state l = BYTE_END -> is_valid_digit a ->
  fsa l (chr a) =
  ([chr a], Some (Break (mkLocals (line l) (col l)
                           (uint8_t (Z.shiftl (digit_value a) 4))
                           (uint64_t (recordSum l + byte l)) (cnt l)
                           BYTE_START))).
Proof.
  intros S V. unfold fsa. rewrite S, (is_hex_char_valid a V).
  unfold bind, call_hex_to_dec. rewrite (hex_to_dec_valid a V). simpl.
  now rewrite (valid_digit_not_colon a V).
Qed.

(** Outside [BYTE_END] a character that is no uppercase digit is reported
    where it stands. *)
Lemma fsa_expecting_digit (l : Locals) (c : Z) :
  state l = NEW_RECORD \/ state l = BYTE_START -> is_hex_char c = false ->
  fsa l c =
  ([], Some (Return l (log_error "Expected uppercase hex digit."
                         (line l) (col l) c))).
Proof.
  intros [S | S] V; unfold fsa; now rewrite S, V.
Qed.

(** In [BYTE_END] the sum is updated first, whatever the character is. *)
Lemma fsa_BYTE_END_alnum (l : Locals) (c : Z) :
  state l = BYTE_END -> is_hex_char c = false -> isalnum c = true ->
  fsa l c =
  ([], Some (Return (set_recordSum (uint64_t (recordSum l + byte l)) l)
               (log_error "Expected uppercase hex digit."
                  (line l) (col l) c))).
Proof.
  intros S V A. unfold fsa. now rewrite S, V, A.
Qed.

Lemma fsa_BYTE_END_other (l : Locals) (c : Z) :
  state l = BYTE_END -> isalnum c = false ->
  fsa l c =
  ([], Some (let sum := uint64_t (recordSum l + byte l) in
             if check_crc sum then
               Break (mkLocals (line l) (col l) (byte l) sum (cnt l)
                        (if c =? chr ":" then NEW_RECORD else COMMENT))
             else
               Return (set_recordSum sum l)
                 (log_error "Wrong CRC." (line l) (col l) (int sum)))).
Proof.
  intros S A. unfold fsa. rewrite S.
  assert (V : is_hex_char c = false).
  { revert A. ctype. }
  rewrite V, A. simpl.
  destruct (check_crc (uint64_t (recordSum l + byte l))); simpl;
    [ now destruct (c =? chr ":") | reflexivity ].
Qed.

(** The switch leaves [line] and [col] alone. *)
Lemma fsa_position (l l' : Locals) (c : Z) (t : list Z) :
  fsa l c = (t, Some (Break l')) -> line l' = line l /\ col l' = col l.
Proof.
  unfold fsa, bind, call_hex_to_dec, ret.
  destruct (state l); simpl;
    repeat match goal with
           | |- context [if ?b then _ else _] => destruct b; simpl
           | |- context [match hex_to_dec ?c with _ => _ end] =>
               destruct (hex_to_dec c); simpl
           end;
    intros [= <- <-] || discriminate; auto.
Qed.

(** ** The loop *)

Lemma scan_nil (l : Locals) : scan l [] = EndOfFile l.
Proof. reflexivity. Qed.

Lemma scan_cons (l : Locals) (a : ascii) (s : list ascii) :
  scan l (a :: s) =
  match snd (fsa l (chr a)) with
  | None => Abort
  | Some (Return l' e) => Returned l' e
  | Some (Break l') =>
      match update_context l' (chr a) with
      | None => Overflow
      | Some l'' => scan l'' s
      end
  end.
Proof.
  unfold scan. simpl.
  destruct (fsa l (chr a)) as [t [[l' | l' e] | ]]; simpl; try reflexivity.
  destruct (update_context l' (chr a)) as [l'' | ]; simpl; try reflexivity.
  now destruct (while_input l'' s).
Qed.

Lemma scan_app (l : Locals) (s1 s2 : list ascii) :
  scan l (s1 ++ s2) =
  match scan l s1 with
  | EndOfFile l' => scan l' s2
  | x => x
  end.
Proof.
  revert l. induction s1 as [ | a s1 IH]; intros l.
  - reflexivity.
  - simpl app. rewrite !scan_cons.
    destruct (snd (fsa l (chr a))) as [[l' | l' e] | ]; try reflexivity.
    destruct (update_context l' (chr a)); [ apply IH | reflexivity ].
Qed.

Lemma update_context_spec (l : Locals) (a : ascii) :
  col l < INT_MAX -> line l < INT_MAX ->
  update_context l (chr a) =
  Some (if Ascii.eqb a newline
        then mkLocals (line l + 1) 1 (byte l) (recordSum l) (cnt l) (state l)
        else mkLocals (line l) (col l + 1) (byte l) (recordSum l) (cnt l)
               (state l)).
Proof.
  intros C L. unfold update_context.
  destruct (Z.ltb_spec (col l) INT_MAX); [ | lia ].
  rewrite chr_newline. destruct (Ascii.eqb a newline); [ | reflexivity ].
  simpl. destruct (Z.ltb_spec (line l) INT_MAX); [ reflexivity | lia ].
Qed.

Lemma update_context_digit (l : Locals) (a : ascii) :
  is_valid_digit a -> col l < INT_MAX ->
  update_context l (chr a) =
  Some (mkLocals (line l) (col l + 1) (byte l) (recordSum l) (cnt l)
          (state l)).
Proof.
  intros V C. unfold update_context.
  destruct (Z.ltb_spec (col l) INT_MAX); [ | lia ].
  now rewrite (valid_digit_not_newline a V).
Qed.

(** The position in the variables is the position in the text. *)
Lemma update_context_position (l l' : Locals) (a : ascii) :
  update_context l (chr a) = Some l' ->
  (line l', col l') =
  (if Ascii.eqb a newline then (line l + 1, 1) else (line l, col l + 1)).
Proof.
  unfold update_context. rewrite chr_newline.
  destruct (col l <? INT_MAX); [ | discriminate ].
  destruct (Ascii.eqb a newline); simpl.
  - destruct (line l <? INT_MAX); [ | discriminate ]. now intros [= <-].
  - now intros [= <-].
Qed.

Lemma scan_position (s : list ascii) (l l' : Locals) :
  scan l s = EndOfFile l' ->
  (line l', col l') = position_after (line l, col l) s.
Proof.
  revert l. induction s as [ | a s IH]; intros l.
  - rewrite scan_nil. now intros [= <-].
  - rewrite scan_cons.
    destruct (fsa l (chr a)) as [t [[l1 | l1 e] | ]] eqn:F; simpl;
      try discriminate.
    destruct (update_context l1 (chr a)) as [l2 | ] eqn:U; try discriminate.
    intros H. apply IH in H. rewrite H.
    apply update_context_position in U. rewrite U.
    apply fsa_position in F. destruct F as [-> ->].
    now destruct (Ascii.eqb a newline).
Qed.

(** ** What the switch preserves *)

(** The switch either keeps [cnt], or counts the record that a [':'] opens
    in a comment. *)
Lemma fsa_cnt (l l' : Locals) (c : Z) (t : list Z) :
  fsa l c = (t, Some (Break l')) ->
  (cnt l' = cnt l /\ (state l' = COMMENT \/ state l <> COMMENT))
  \/ (cnt l' = size_t (cnt l + 1) /\ state l = COMMENT).
Proof.
  unfold fsa, bind, call_hex_to_dec, ret.
  destruct (state l) eqn:S; simpl;
    repeat match goal with
           | |- context [if ?b then _ else _] => destruct b; simpl
           | |- context [match hex_to_dec ?c with _ => _ end] =>
               destruct (hex_to_dec c); simpl
           end;
    intros [= <- <-] || discriminate; simpl; try rewrite S;
    first [ right; split; reflexivity
          | left; split;
            [ reflexivity
            | first [ left; reflexivity | right; discriminate ] ] ].
Qed.

(** A message written inside the loop comes from [log_error]. *)
Lemma fsa_return (l l' : Locals) (c : Z) (t : list Z) (e : Stderr) :
  fsa l c = (t, Some (Return l' e)) ->
  exists msg ln cl v, e = ErrorAt msg ln cl v.
Proof.
  unfold fsa, bind, call_hex_to_dec, ret, log_error.
  destruct (state l); simpl;
    repeat match goal with
           | |- context [if ?b then _ else _] => destruct b; simpl
           | |- context [match hex_to_dec ?c with _ => _ end] =>
               destruct (hex_to_dec c); simpl
           end;
    intros [= <- <-] || discriminate; eauto.
Qed.

Lemma update_context_fields (l l' : Locals) (c : Z) :
  update_context l c = Some l' ->
  cnt l' = cnt l /\ state l' = state l /\ byte l' = byte l
  /\ recordSum l' = recordSum l.
Proof.
  unfold update_context.
  destruct (col l <? INT_MAX); [ | discriminate ].
  destruct (c =? chr newline); simpl.
  - destruct (line l <? INT_MAX); [ | discriminate ]. now intros [= <-].
  - now intros [= <-].
Qed.

Lemma update_context_bounds (l l' : Locals) (c : Z) :
  update_context l c = Some l' ->
  col l < INT_MAX
  /\ ((line l' = line l /\ col l' = col l + 1)
      \/ (line l < INT_MAX /\ line l' = line l + 1 /\ col l' = 1)).
Proof.
  unfold update_context.
  destruct (Z.ltb_spec (col l) INT_MAX); [ | discriminate ].
  destruct (c =? chr newline); simpl.
  - destruct (Z.ltb_spec (line l) INT_MAX); [ | discriminate ].
    intros [= <-]. simpl. auto.
  - intros [= <-]. simpl. auto.
Qed.


Lemma well_formed_initial : well_formed initial.
Proof.
  unfold well_formed, initial, INT_MAX. simpl. repeat split; try lia.
  intros H. now elim H.
Qed.

Lemma well_formed_step (l l1 l2 : Locals) (c : Z) (t : list Z) :
  well_formed l -> fsa l c = (t, Some (Break l1)) ->
  update_context l1 c = Some l2 ->
  well_formed l2 /\ moved l2.
Proof.
  intros (L & C & N & R) F U.
  destruct (fsa_position _ _ _ _ F) as [P1 P2].
  destruct (update_context_fields _ _ _ U) as (U1 & U2 & _).
  destruct (update_context_bounds _ _ _ U) as (B & U3).
  assert (W : cnt l1 <= cnt l + 1 /\ 0 <= cnt l1
              /\ (state l1 <> COMMENT -> 1 <= cnt l1)).
  { destruct (fsa_cnt _ _ _ _ F) as [[E S] | [E S]].
    - rewrite E. repeat split; try lia. intros H. apply R. tauto.
    - rewrite E. unfold size_t. unfold INT_MAX in *.
      rewrite Z.mod_small by lia. lia. }
  unfold well_formed, moved. rewrite U1, U2. unfold INT_MAX in *.
  destruct U3 as [[-> ->] | (? & -> & ->)]; repeat split; try lia; tauto.
Qed.

Lemma well_formed_scan (s : list ascii) (l l' : Locals) :
  well_formed l -> scan l s = EndOfFile l' ->
  well_formed l' /\ (s <> [] -> moved l').
Proof.
  revert l. induction s as [ | a s IH]; intros l W.
  - rewrite scan_nil. intros [= <-]. split; [ assumption | congruence ].
  - rewrite scan_cons.
    destruct (fsa l (chr a)) as [t [[l1 | l1 e] | ]] eqn:F; simpl;
      try discriminate.
    destruct (update_context l1 (chr a)) as [l2 | ] eqn:U; try discriminate.
    intros H. destruct (well_formed_step _ _ _ _ _ W F U) as [W2 M2].
    destruct (IH _ W2 H) as [W' M']. split; [ assumption | ]. intros _.
    destruct s as [ | b s]; [ | apply M'; discriminate ].
    rewrite scan_nil in H. now injection H as <-.
Qed.

Lemma scan_returned (s : list ascii) (l l' : Locals) (e : Stderr) :
  scan l s = Returned l' e -> exists msg ln cl v, e = ErrorAt msg ln cl v.
Proof.
  revert l. induction s as [ | a s IH]; intros l.
  - rewrite scan_nil. discriminate.
  - rewrite scan_cons.
    destruct (fsa l (chr a)) as [t [[l1 | l1 e1] | ]] eqn:F; simpl;
      try discriminate.
    + destruct (update_context l1 (chr a)); [ apply IH | discriminate ].
    + intros [= <- <-]. eapply fsa_return, F.
Qed.

Lemma at_eof_true (l : Locals) :
  moved l -> cnt l <> 0 -> at_eof l = ReturnTrue.
Proof.
  unfold moved, at_eof. intros M N.
  destruct (Z.eqb_spec (line l) 1), (Z.eqb_spec (col l) 1); simpl; try lia;
    destruct (Z.eqb_spec (cnt l) 0); congruence.
Qed.

Lemma at_eof_no_record (l : Locals) :
  moved l -> cnt l = 0 -> at_eof l = ReturnFalse NoRecordFound.
Proof.
  unfold moved, at_eof. intros M N.
  destruct (Z.eqb_spec (line l) 1), (Z.eqb_spec (col l) 1); simpl; try lia;
    destruct (Z.eqb_spec (cnt l) 0); congruence.
Qed.

(** ** Positions in a text *)

Lemma position_after_app (p : Z * Z) (s1 s2 : list ascii) :
  position_after p (s1 ++ s2) = position_after (position_after p s1) s2.
Proof.
  revert p. induction s1 as [ | a s1 IH]; intros p; [ reflexivity | apply IH ].
Qed.

Lemma valid_digit_eqb_newline (a : ascii) :
  is_valid_digit a -> Ascii.eqb a newline = false.
Proof.
  intros V. rewrite <- chr_newline. now apply valid_digit_not_newline.
Qed.

Lemma position_after_digits (ps : list (ascii * ascii)) (p : Z * Z) :
  Forall valid_pair ps ->
  position_after p (digits ps) = (fst p, snd p + 2 * Z.of_nat (length ps)).
Proof.
  intros V. revert p. induction V as [ | [h lo] ps [V1 V2] _ IH]; intros p.
  - simpl. destruct p. simpl. f_equal. lia.
  - simpl digits. simpl position_after. simpl in V1, V2.
    rewrite (valid_digit_eqb_newline h V1), (valid_digit_eqb_newline lo V2).
    rewrite IH. simpl fst. simpl snd. f_equal. simpl length. lia.
Qed.

(** Lines are counted from 1 by the newlines of the text, and columns by
    the characters after the last of them. *)
Lemma position_after_bounds (s : list ascii) (p : Z * Z) :
  fst p <= fst (position_after p s) <= fst p + Z.of_nat (length s)
  /\ (1 <= snd p ->
      1 <= snd (position_after p s) <= snd p + Z.of_nat (length s)).
Proof.
  revert p. induction s as [ | a s IH]; intros p.
  - simpl. lia.
  - simpl position_after. simpl length.
    destruct (Ascii.eqb a newline);
      match goal with
      | |- context [position_after ?q s] => specialize (IH q)
      end; simpl fst in IH; simpl snd in IH; lia.
Qed.

Lemma position_of_line (s : list ascii) :
  fst (position_of s) = 1 + Z.of_nat (count_occ ascii_dec s newline).
Proof.
  unfold position_of.
  enough (G : forall p, fst (position_after p s)
                        = fst p + Z.of_nat (count_occ ascii_dec s newline))
    by apply G.
  induction s as [ | a s IH]; intros p.
  - simpl. lia.
  - simpl position_after. simpl count_occ.
    destruct (Ascii.eqb_spec a newline) as [-> | N].
    + rewrite IH. destruct (ascii_dec newline newline); [ | congruence ].
      simpl fst. lia.
    + rewrite IH. destruct (ascii_dec a newline); [ congruence | ].
      reflexivity.
Qed.

Lemma position_of_column (s1 s2 : list ascii) :
  ~ In newline s2 ->
  snd (position_of (s1 ++ newline :: s2)) = 1 + Z.of_nat (length s2).
Proof.
  intros N. unfold position_of.
  rewrite position_after_app. simpl position_after.
  generalize (fst (position_after (1, 1) s1) + 1). intros ln.
  enough (G : forall p, snd (position_after p s2)
                        = snd p + Z.of_nat (length s2)) by apply G.
  induction s2 as [ | a s2 IH]; intros p.
  - simpl. lia.
  - simpl position_after. simpl length.
    destruct (Ascii.eqb_spec a newline) as [-> | _].
    + elim N. now left.
    + rewrite IH by (intros H; apply N; now right). simpl snd. lia.
Qed.

(** ** Segments of the input *)



Lemma fits_app (s1 s2 : list ascii) (p : Z * Z) :
  fits p (s1 ++ s2) = fits p s1 && fits (position_after p s1) s2.
Proof.
  revert p. induction s1 as [ | a s1 IH]; intros p; [ reflexivity | ].
  cbn [app fits position_after].
  destruct (Ascii.eqb a newline); rewrite IH; now rewrite !andb_assoc.
Qed.

Lemma fits_update (l : Locals) (a : ascii) (s : list ascii) :
  fits (line l, col l) (a :: s) = true ->
  exists l', update_context l (chr a) = Some l'
             /\ fits (line l', col l') s = true
             /\ cnt l' = cnt l /\ state l' = state l
             /\ byte l' = byte l /\ recordSum l' = recordSum l.
Proof.
  cbn [fits fst snd]. unfold update_context. rewrite chr_newline.
  destruct (col l <? INT_MAX); [ | discriminate ]. cbn [andb].
  destruct (Ascii.eqb a newline); cbn [line col set_col set_line].
  - destruct (line l <? INT_MAX); [ | discriminate ]. cbn [andb].
    intros F. eexists. split; [ reflexivity | ]. fields. auto.
  - intros F. eexists. split; [ reflexivity | ]. fields. auto.
Qed.

Lemma fits_digits (ps : list (ascii * ascii)) (s : list ascii) (p : Z * Z) :
  Forall valid_pair ps -> snd p <= INT_MAX ->
  fits p (digits ps ++ s) = true ->
  snd p + 2 * Z.of_nat (length ps) <= INT_MAX
  /\ fits (fst p, snd p + 2 * Z.of_nat (length ps)) s = true.
Proof.
  intros V. revert p.
  induction V as [ | [h lo] ps [V1 V2] _ IH]; intros p B F.
  - cbn [digits app length] in *.
    replace (snd p + 2 * Z.of_nat 0) with (snd p) by lia.
    split; [ assumption | now destruct p ].
  - cbn [digits app fits fst snd] in F. cbn [fst snd] in V1, V2.
    rewrite (valid_digit_eqb_newline h V1) in F.
    rewrite (valid_digit_eqb_newline lo V2) in F.
    destruct (Z.ltb_spec (snd p) INT_MAX); [ | discriminate ].
    destruct (Z.ltb_spec (snd p + 1) INT_MAX); [ | discriminate ].
    cbn [andb] in F. apply IH in F; [ | cbn [snd]; lia ].
    cbn [fst snd] in F.
    cbn [length]. rewrite Nat2Z.inj_succ.
    replace (snd p + 2 * Z.succ (Z.of_nat (length ps)))
      with (snd p + 1 + 1 + 2 * Z.of_nat (length ps)) by lia.
    exact F.
Qed.

(** The positions fit whenever the stream is shorter than [INT_MAX], and
    then no increment of [line] or [col] overflows. *)
Lemma fits_short (s : list ascii) (p : Z * Z) :
  1 <= snd p ->
  fst p + Z.of_nat (length s) <= INT_MAX ->
  snd p + Z.of_nat (length s) <= INT_MAX ->
  fits p s = true.
Proof.
  revert p. induction s as [ | a s IH]; intros p C BL BC; [ reflexivity | ].
  cbn [fits length] in *. rewrite Nat2Z.inj_succ in BL, BC.
  destruct (Z.ltb_spec (snd p) INT_MAX); [ | lia ].
  destruct (Z.ltb_spec (fst p) INT_MAX); [ | lia ].
  destruct (Ascii.eqb a newline); cbn [andb]; apply IH; cbn [fst snd]; lia.
Qed.

Lemma positions_fit_short (file : list ascii) :
  Z.of_nat (length file) < INT_MAX -> positions_fit file = true.
Proof.
  intros B. apply fits_short; cbn [fst snd]; lia.
Qed.

Lemma fits_no_overflow (s : list ascii) (l : Locals) :
  fits (line l, col l) s = true -> scan l s <> Overflow.
Proof.
  revert l. induction s as [ | a s IH]; intros l F.
  - rewrite scan_nil. discriminate.
  - rewrite scan_cons.
    destruct (fsa l (chr a)) as [t [[l1 | l1 e] | ]] eqn:E; cbn [snd];
      try discriminate.
    destruct (fsa_position _ _ _ _ E) as [P1 P2].
    rewrite <- P1, <- P2 in F.
    destruct (fits_update l1 a s F) as (l2 & -> & F2 & _). now apply IH.
Qed.

(** Outside a record everything but [':'] is discarded. *)
Lemma scan_comment (s : list ascii) (l : Locals) :
  state l = COMMENT -> ~ In ":"%char s -> fits (line l, col l) s = true ->
  exists l', scan l s = EndOfFile l' /\ state l' = COMMENT
             /\ cnt l' = cnt l.
Proof.
  revert l. induction s as [ | a s IH]; intros l S N R.
  - exists l. rewrite scan_nil. auto.
  - rewrite scan_cons, (fsa_COMMENT l _ S). cbn [snd].
    assert (E : (chr a =? chr ":") = false).
    { apply Z.eqb_neq. intros E. apply N. left. symmetry. now apply chr_inj. }
    rewrite E.
    destruct (fits_update l a _ R) as (l1 & -> & R1 & C1 & S1 & _).
    assert (N1 : ~ In ":"%char s) by (intros H; apply N; now right).
    assert (S2 : state l1 = COMMENT) by congruence.
    destruct (IH l1 S2 N1 R1) as (l' & H & S' & C').
    exists l'. rewrite C', C1. auto.
Qed.

(** A pair of digits, from the start of a record or after another pair. *)
Lemma scan_pair (l : Locals) (h lo : ascii) (s : list ascii) :
  state l = NEW_RECORD \/ state l = BYTE_END -> valid_pair (h, lo) ->
  col l + 2 <= INT_MAX ->
  scan l (h :: lo :: s) =
  scan (mkLocals (line l) (col l + 2) (pair_value (h, lo))
          (match state l with
           | NEW_RECORD => 0
           | _ => uint64_t (recordSum l + byte l)
           end) (cnt l) BYTE_END) s.
Proof.
  intros S [V1 V2] C. cbn [fst snd] in V1, V2.
  pose proof (digit_value_range h V1) as R1.
  pose proof (digit_value_range lo V2) as R2.
  assert (E : forall l1 sum,
             state l1 = NEW_RECORD \/ state l1 = BYTE_END ->
             snd (fsa l1 (chr h))
             = Some (Break (mkLocals (line l) (col l)
                              (uint8_t (Z.shiftl (digit_value h) 4)) sum
                              (cnt l) BYTE_START)) ->
             scan l1 (h :: lo :: s)
             = scan (mkLocals (line l) (col l + 2) (pair_value (h, lo)) sum
                       (cnt l) BYTE_END) s).
  { intros l1 sum _ F. rewrite scan_cons, F.
    rewrite (update_context_digit _ h V1) by (fields; lia). fields.
    rewrite scan_cons, (fsa_BYTE_START_digit _ lo)
      by (reflexivity || assumption).
    fields.
    rewrite (update_context_digit _ lo V2) by (fields; lia). fields.
    rewrite byte_of_nibbles by assumption.
    unfold pair_value. fields. do 2 f_equal. lia. }
  destruct S as [S | S]; rewrite S; apply E; auto.
  - now rewrite (fsa_NEW_RECORD_digit l h S V1).
  - now rewrite (fsa_BYTE_END_digit l h S V1).
Qed.

Lemma uint64_add_l (x y : Z) : uint64_t (uint64_t x + y) = uint64_t (x + y).
Proof.
  unfold uint64_t. now rewrite Zplus_mod_idemp_l.
Qed.

(** Further pairs add their bytes to the sum; the last byte is pending. *)
Lemma scan_digits (ps : list (ascii * ascii)) (l : Locals) :
  state l = BYTE_END -> Forall valid_pair ps ->
  col l + 2 * Z.of_nat (length ps) <= INT_MAX ->
  exists l', (forall s, scan l (digits ps ++ s) = scan l' s)
             /\ state l' = BYTE_END /\ line l' = line l
             /\ col l' = col l + 2 * Z.of_nat (length ps)
             /\ cnt l' = cnt l
             /\ uint64_t (recordSum l' + byte l')
                = uint64_t (recordSum l + byte l + byte_sum ps).
Proof.
  intros S V. revert l S.
  induction V as [ | [h lo] ps V1 _ IH]; intros l S C.
  - exists l. split; [ reflexivity | ]. split; [ assumption | ].
    split; [ reflexivity | ]. cbn [length byte_sum].
    split; [ lia | ]. split; [ reflexivity | ]. f_equal. lia.
  - cbn [length] in C. rewrite Nat2Z.inj_succ in C.
    pose (l1 := mkLocals (line l) (col l + 2) (pair_value (h, lo))
                  (uint64_t (recordSum l + byte l)) (cnt l) BYTE_END).
    destruct (IH l1 eq_refl) as (l' & H & S' & L' & C' & N' & E').
    { unfold l1. fields. lia. }
    exists l'. split.
    { intros s. cbn [digits app].
      rewrite scan_pair; [ | now right | assumption | lia ].
      rewrite S. apply H. }
    rewrite L', C', N', E'. unfold l1. fields. cbn [length byte_sum].
    rewrite Nat2Z.inj_succ.
    split; [ assumption | ]. split; [ reflexivity | ].
    split; [ lia | ]. split; [ reflexivity | ].
    now rewrite <- Z.add_assoc, uint64_add_l.
Qed.

(** The pairs of a whole record, from its first digit on. *)
Lemma scan_record (ps : list (ascii * ascii)) (l : Locals) :
  state l = NEW_RECORD -> ps <> [] -> Forall valid_pair ps ->
  col l + 2 * Z.of_nat (length ps) <= INT_MAX ->
  exists l', (forall s, scan l (digits ps ++ s) = scan l' s)
             /\ state l' = BYTE_END /\ line l' = line l
             /\ col l' = col l + 2 * Z.of_nat (length ps)
             /\ cnt l' = cnt l
             /\ uint64_t (recordSum l' + byte l') = uint64_t (byte_sum ps).
Proof.
  intros S N V C. destruct ps as [ | [h lo] ps]; [ congruence | ].
  inversion V as [ | ? ? V1 V2]; subst.
  cbn [length] in C. rewrite Nat2Z.inj_succ in C.
  pose (l1 := mkLocals (line l) (col l + 2) (pair_value (h, lo)) 0 (cnt l)
                BYTE_END).
  destruct (scan_digits ps l1 eq_refl V2) as (l' & H & S' & L' & C' & N' & E').
  { unfold l1. fields. lia. }
  exists l'. split.
  { intros s. cbn [digits app].
    rewrite scan_pair; [ | now left | assumption | lia ].
    rewrite S. apply H. }
  rewrite L', C', N', E'. unfold l1. fields. cbn [length byte_sum].
  rewrite Nat2Z.inj_succ.
  split; [ assumption | ]. split; [ reflexivity | ].
  split; [ lia | ]. split; reflexivity.
Qed.

(** A [':'] that is read without a message opens a record. *)
Lemma scan_colon (l l' : Locals) (pre : list ascii) :
  scan l (pre ++ [":"%char]) = EndOfFile l' -> state l' = NEW_RECORD.
Proof.
  rewrite scan_app. destruct (scan l pre) as [l0 | | | ]; try discriminate.
  rewrite scan_cons.
  destruct (state l0) eqn:S.
  - rewrite (fsa_COMMENT l0 _ S). cbn [snd]. rewrite Z.eqb_refl.
    destruct (update_context _ _) as [l1 | ] eqn:U; [ | discriminate ].
    rewrite scan_nil. intros [= <-].
    now destruct (update_context_fields _ _ _ U) as (_ & -> & _).
  - rewrite fsa_expecting_digit by (auto || reflexivity). discriminate.
  - rewrite fsa_expecting_digit by (auto || reflexivity). discriminate.
  - rewrite (fsa_BYTE_END_other l0 _ S) by reflexivity. cbn [snd].
    destruct (check_crc _); [ | discriminate ].
    rewrite Z.eqb_refl.
    destruct (update_context _ _) as [l1 | ] eqn:U; [ | discriminate ].
    rewrite scan_nil. intros [= <-].
    now destruct (update_context_fields _ _ _ U) as (_ & -> & _).
Qed.

(** ** The end of a record *)

(** A record whose bytes do not sum to zero modulo 256, closed by a
    character that is neither a letter nor a digit: the whole diagnostic. *)
Lemma wrong_crc_diagnostic (pre : list ascii) (ps : list (ascii * ascii))
    (t : ascii) (rest : list ascii) (l : Locals) :
  scan initial (pre ++ [":"%char]) = EndOfFile l ->
  Forall valid_pair ps ->
  isalnum (chr t) = false ->
  byte_sum ps mod 256 <> 0 ->
  snd (position_of (pre ++ ":"%char :: digits ps)) <= INT_MAX ->
  check_file (pre ++ ":"%char :: digits ps ++ t :: rest) =
  ReturnFalse
    (ErrorAt "Wrong CRC."
       (fst (position_of (pre ++ ":"%char :: digits ps)))
       (snd (position_of (pre ++ ":"%char :: digits ps)))
       (byte_sum ps mod 256)).
Proof.
  intros H V A N B.
  pose proof (scan_colon _ _ _ H) as S.
  pose proof (scan_position _ _ _ H) as P.
  assert (Q : position_of (pre ++ ":"%char :: digits ps)
              = (line l, col l + 2 * Z.of_nat (length ps))).
  { change (pre ++ ":"%char :: digits ps)
      with (pre ++ [":"%char] ++ digits ps).
    rewrite app_assoc. unfold position_of. rewrite position_after_app.
    change (line initial, col initial) with (1, 1) in P. rewrite <- P.
    now rewrite position_after_digits. }
  rewrite Q in *. cbn [fst snd] in *.
  assert (E : ps <> []) by (intros ->; now apply N).
  destruct (scan_record ps l S E V B) as (l' & R & S' & L' & C' & _ & E').
  unfold check_file.
  change (pre ++ ":"%char :: digits ps ++ t :: rest)
    with (pre ++ [":"%char] ++ digits ps ++ t :: rest).
  rewrite app_assoc.
  fold (scan initial ((pre ++ [":"%char]) ++ digits ps ++ t :: rest)).
  rewrite scan_app, H, R, scan_cons.
  rewrite (fsa_BYTE_END_other l' _ S' A). cbn [snd]. cbv zeta.
  rewrite E', check_crc_mod, uint64_mod_256.
  destruct (Z.eqb_spec (byte_sum ps mod 256) 0) as [Z | _];
    [ contradiction | ].
  cbn [finish]. unfold log_error.
  now rewrite uint8_int, uint64_mod_256, L', C'.
Qed.

Lemma length_digits (ps : list (ascii * ascii)) :
  length (digits ps) = (2 * length ps)%nat.
Proof.
  induction ps as [ | [h lo] ps IH]; [ reflexivity | ].
  cbn [digits length]. rewrite IH. lia.
Qed.

(** A stream that reaches its end with a record counted is accepted. *)
Lemma check_file_counted (file : list ascii) (l : Locals) :
  scan initial file = EndOfFile l -> file <> [] -> cnt l <> 0 ->
  check_file file = ReturnTrue.
Proof.
  intros H N C. unfold check_file. fold (scan initial file). rewrite H.
  destruct (well_formed_scan _ _ _ well_formed_initial H) as [_ M].
  apply at_eof_true; auto.
Qed.

(** A letter or digit that is no uppercase hexadecimal digit, after a
    pair. *)
Lemma scan_BYTE_END_alnum (pre rest : list ascii) (a : ascii) (l : Locals) :
  scan initial pre = EndOfFile l ->
  state l = BYTE_END ->
  isalnum (chr a) = true -> is_hex_char (chr a) = false ->
  scan initial (pre ++ a :: rest)
  = Returned (set_recordSum (uint64_t (recordSum l + byte l)) l)
      (ErrorAt "Expected uppercase hex digit." (line l) (col l) (chr a)).
Proof.
  intros H S A V.
  rewrite scan_app, H, scan_cons, (fsa_BYTE_END_alnum l _ S V A).
  cbn [snd]. unfold log_error, uint8_t.
  now rewrite Z.mod_small by (pose proof (chr_range a); lia).
Qed.

(** ** The calls of [hex_to_dec] *)

Lemma fsa_calls (l : Locals) (c : Z) :
  snd (fsa l c) <> None /\ Forall decodable (fst (fsa l c)).
Proof.
  assert (D : is_hex_char c = true -> decodable c).
  { intros V. split; [ assumption | ].
    destruct (hex_to_dec_is_hex_char c V) as [v E].
    exists v. split; [ assumption | ]. eapply hex_to_dec_range, E. }
  unfold fsa, bind, call_hex_to_dec, ret.
  destruct (state l).
  - destruct (c =? chr ":"); cbn; split; (discriminate || constructor).
  - destruct (is_hex_char c) eqn:V.
    + assert (Dc := D eq_refl). destruct (proj2 Dc) as (v & E & _).
      rewrite E. cbn.
      split; [ discriminate | constructor; [ exact Dc | constructor ] ].
    + cbn. split; [ discriminate | constructor ].
  - destruct (is_hex_char c) eqn:V.
    + assert (Dc := D eq_refl). destruct (proj2 Dc) as (v & E & _).
      rewrite E. cbn.
      split; [ discriminate | constructor; [ exact Dc | constructor ] ].
    + cbn. split; [ discriminate | constructor ].
  - destruct (is_hex_char c) eqn:V.
    + assert (Dc := D eq_refl). destruct (proj2 Dc) as (v & E & _).
      rewrite E. cbn [fst snd app].
      destruct (c =? chr ":"); cbn;
        (split; [ discriminate | constructor; [ exact Dc | constructor ] ]).
    + destruct (isalnum c); [ cbn; split; [ discriminate | constructor ] | ].
      destruct (negb (check_crc _));
        [ cbn; split; [ discriminate | constructor ] | ].
      cbn [fst snd app].
      destruct (c =? chr ":"); cbn; (split; [ discriminate | constructor ]).
Qed.

Lemma while_input_calls (file : list ascii) (l : Locals) :
  snd (while_input l file) <> Abort
  /\ Forall decodable (fst (while_input l file)).
Proof.
  revert l. induction file as [ | a s IH]; intros l.
  - cbn. split; [ discriminate | constructor ].
  - cbn [while_input]. destruct (fsa_calls l (chr a)) as [N F].
    destruct (fsa l (chr a)) as [t [[l1 | l1 e] | ]]; cbn [fst snd] in *.
    + destruct (update_context l1 (chr a)) as [l2 | ].
      * destruct (IH l2) as [N2 F2].
        destruct (while_input l2 s) as [t' x]. cbn [fst snd] in *.
        split; [ assumption | ]. apply Forall_app. auto.
      * cbn. split; [ discriminate | assumption ].
    + cbn. split; [ discriminate | assumption ].
    + now elim N.
Qed.

(** ** A line that is longer than an [int] can count *)

Lemma int_add_l (a b : Z) : int (int a + b) = int (a + b).
Proof.
  unfold int. f_equal.
  replace ((a + 2147483648) mod 4294967296 - 2147483648 + b + 2147483648)
    with ((a + 2147483648) mod 4294967296 + b) by lia.
  rewrite Zplus_mod_idemp_l. f_equal. lia.
Qed.

Lemma int_idem (a : Z) : int (int a) = int a.
Proof.
  replace (int a) with (int a + 0) at 1 by lia.
  rewrite int_add_l. f_equal. lia.
Qed.

(** In a comment, on a line without [':'], [col++] overflows once the
    column has reached [INT_MAX]. *)
Lemma scan_long_line (n : nat) (l : Locals) :
  state l = COMMENT -> col l <= INT_MAX ->
  INT_MAX < col l + Z.of_nat n ->
  scan l (repeat "x"%char n) = Overflow.
Proof.
  revert l. induction n as [ | n IH]; intros l S C B.
  - cbn in B. lia.
  - cbn [repeat]. rewrite scan_cons, (fsa_COMMENT l _ S). cbn [snd].
    change (chr "x" =? chr ":") with false. cbv iota.
    unfold update_context. change (chr "x" =? chr newline) with false.
    destruct (Z.ltb_spec (col l) INT_MAX); [ | reflexivity ].
    apply IH; cbn [state col set_col]; [ assumption | lia | lia ].
Qed.

(** Where the overflow wraps around, the column comes back. *)
Lemma wrap_long_line (n : nat) (l : Locals) :
  state l = COMMENT -> int (col l) = col l ->
  snd (while_input_wrap l (repeat "x"%char n))
  = EndOfFile (set_col (int (col l + Z.of_nat n)) l).
Proof.
  revert l. induction n as [ | n IH]; intros l S C.
  - cbn [repeat while_input_wrap snd Z.of_nat]. rewrite Z.add_0_r, C.
    now destruct l.
  - cbn [repeat while_input_wrap]. rewrite (fsa_COMMENT l _ S).
    change (chr "x" =? chr ":") with false. cbv iota.
    unfold update_context_wrap. change (chr "x" =? chr newline) with false.
    cbv iota zeta.
    specialize (IH (set_col (int (col l + 1)) l) S).
    destruct (while_input_wrap (set_col (int (col l + 1)) l)
                (repeat "x"%char n)) as [t' x].
    cbn [snd] in *. rewrite IH.
    + cbn [col set_col line byte recordSum cnt state].
      rewrite int_add_l, Nat2Z.inj_succ.
      replace (col l + 1 + Z.of_nat n) with (col l + Z.succ (Z.of_nat n))
        by lia.
      reflexivity.
    + cbn [col set_col]. apply int_idem.
Qed.

Lemma check_file_long_line (n : nat) :
  INT_MAX <= Z.of_nat n -> check_file (repeat "x"%char n) = Undefined.
Proof.
  intros B. unfold check_file.
  change (snd (while_input initial (repeat "x"%char n)))
    with (scan initial (repeat "x"%char n)).
  rewrite scan_long_line; [ reflexivity | reflexivity | discriminate | ].
  change (col initial) with 1. lia.
Qed.

Lemma check_file_wrap_long_line (n : nat) :
  check_file_wrap (repeat "x"%char n)
  = at_eof (set_col (int (1 + Z.of_nat n)) initial).
Proof.
  unfold check_file_wrap. now rewrite wrap_long_line.
Qed.

(** ** The arguments of [hex_to_dec] *)

(** The arguments of [hex_to_dec] are characters of the stream. *)
Lemma fsa_calls_input (l : Locals) (c : Z) :
  Forall (fun x => x = c) (fst (fsa l c)).
Proof.
  unfold fsa, bind, call_hex_to_dec, ret.
  destruct (state l); simpl;
    repeat match goal with
           | |- context [if ?b then _ else _] => destruct b; simpl
           | |- context [match hex_to_dec ?c with _ => _ end] =>
               destruct (hex_to_dec c); simpl
           end;
    repeat constructor.
Qed.

Lemma while_input_calls_in (file : list ascii) (l : Locals) :
  Forall (fun c => exists a, In a file /\ c = chr a)
    (fst (while_input l file)).
Proof.
  revert l. induction file as [ | a s IH]; intros l; [ constructor | ].
  cbn [while_input]. pose proof (fsa_calls_input l (chr a)) as F.
  assert (G : Forall (fun c => exists b, In b (a :: s) /\ c = chr b)
                (fst (fsa l (chr a)))).
  { revert F. apply Forall_impl. intros c ->. exists a. split; [ now left | ].
    reflexivity. }
  destruct (fsa l (chr a)) as [t [[l1 | l1 e] | ]]; cbn [fst] in *;
    try assumption.
  destruct (update_context l1 (chr a)) as [l2 | ]; [ | assumption ].
  specialize (IH l2). destruct (while_input l2 s) as [t' x].
  cbn [fst] in *. apply Forall_app. split; [ assumption | ].
  revert IH. apply Forall_impl. intros c (b & I & ->). exists b.
  split; [ now right | reflexivity ].
Qed.

(** ** The claims *)

(** C1: a record that is closed by a character that is neither a letter nor
    a digit and whose decoded bytes have a nonzero sum modulo 256, with no
    message before it, makes [check_file] fail with "Wrong CRC.", and the
    character shown as invalid input is that sum modulo 256, the low byte
    of [recordSum].  The column of the closing character is taken to be in
    the range of [int]. *)
Theorem wrong_crc_reported (pre : list ascii) (ps : list (ascii * ascii))
    (t : ascii) (rest : list ascii) (l : Locals) :
  scan initial (pre ++ [":"%char]) = EndOfFile l ->
  Forall valid_pair ps ->
  isalnum (chr t) = false ->
  byte_sum ps mod 256 <> 0 ->
  snd (position_of (pre ++ ":"%char :: digits ps)) <= INT_MAX ->
  exists ln cl,
    check_file (pre ++ ":"%char :: digits ps ++ t :: rest)
    = ReturnFalse (ErrorAt "Wrong CRC." ln cl (byte_sum ps mod 256)).
Proof.
  intros H V A N B. do 2 eexists.
  now apply (wrong_crc_diagnostic pre ps t rest l).
Qed.

Lemma wrong_crc_reported_witness :
  exists ln cl,
    check_file (text ":0000FF" ++ [newline])
    = ReturnFalse (ErrorAt "Wrong CRC." ln cl 255).
Proof.
  apply (wrong_crc_reported []
           [("0", "0"); ("0", "0"); ("F", "F")]%char newline []
           (mkLocals 1 2 0 0 1 NEW_RECORD)).
  - reflexivity.
  - valid_pairs.
  - reflexivity.
  - vm_compute. discriminate.
  - vm_compute. discriminate.
Defined.

(** C2 (what the code does): in [BYTE_END] a [':'] adds the pending byte to
    the sum and checks its low byte, with "Wrong CRC." when it is not zero;
    otherwise the state becomes [NEW_RECORD] in the same pass.  The record
    counter [cnt] keeps its value: it is incremented only when a [':'] is
    read in [COMMENT]. *)
Theorem colon_after_pair (l : Locals) :
  state l = BYTE_END ->
  let sum := uint64_t (recordSum l + byte l) in
  fsa l (chr ":") =
  ([], Some (if sum mod 256 =? 0
             then Break (mkLocals (line l) (col l) (byte l) sum (cnt l)
                           NEW_RECORD)
             else Return (set_recordSum sum l)
                    (ErrorAt "Wrong CRC." (line l) (col l) (sum mod 256)))).
Proof.
  intros S sum. rewrite (fsa_BYTE_END_other l _ S) by reflexivity.
  cbv zeta. fold sum. rewrite check_crc_mod, Z.eqb_refl.
  unfold log_error. now rewrite uint8_int.
Qed.

Lemma colon_after_pair_witness :
  scan initial (text ":00") = EndOfFile (mkLocals 1 4 0 0 1 BYTE_END)
  /\ fsa (mkLocals 1 4 0 0 1 BYTE_END) (chr ":")
     = ([], Some (Break (mkLocals 1 4 0 0 1 NEW_RECORD)))
  /\ scan initial (text ":00:00" ++ [newline])
     = EndOfFile (mkLocals 2 1 0 0 1 COMMENT).
Proof.
  split; [ reflexivity | ]. split; [ | reflexivity ].
  apply (colon_after_pair (mkLocals 1 4 0 0 1 BYTE_END)). reflexivity.
Defined.

(** C3 (as stated) fails: a letter that is no hexadecimal digit after the
    pairs of a record is a lexical error, not the end of the record. *)
Lemma letter_after_record_rejected :
  is_hex_char (chr "G") = false
  /\ byte_sum [("0", "0")]%char mod 256 = 0
  /\ check_file ([] ++ ":"%char :: digits [("0", "0")]%char ++ ["G"%char])
     = ReturnFalse (ErrorAt "Expected uppercase hex digit." 1 4 (chr "G")).
Proof.
  repeat split.
Qed.

(** C3 (amended): any text without [':'], then [':'], then one or more pairs
    of uppercase digits whose bytes sum to 0 modulo 256, then the end of the
    stream or one character that is neither a letter nor a digit: the file
    is accepted.  The positions of the stream are taken to fit in an
    [int]. *)
Theorem well_formed_record_accepted (pre : list ascii)
    (ps : list (ascii * ascii)) (tail : list ascii) :
  ~ In ":"%char pre ->
  ps <> [] -> Forall valid_pair ps ->
  byte_sum ps mod 256 = 0 ->
  tail = [] \/ (exists t, tail = [t] /\ isalnum (chr t) = false) ->
  positions_fit (pre ++ ":"%char :: digits ps ++ tail) = true ->
  check_file (pre ++ ":"%char :: digits ps ++ tail) = ReturnTrue.
Proof.
  intros NC NE V Z T B.
  enough (G : exists l, scan initial (pre ++ ":"%char :: digits ps ++ tail)
                        = EndOfFile l /\ cnt l = 1).
  { destruct G as (l & H & C). apply (check_file_counted _ l H).
    - destruct pre; discriminate.
    - rewrite C. discriminate. }
  unfold positions_fit in B. rewrite fits_app in B.
  apply andb_prop in B. destruct B as [B0 B1].
  destruct (scan_comment pre initial) as (l0 & H0 & S0 & C0);
    [ reflexivity | assumption | exact B0 | ].
  pose proof (scan_position _ _ _ H0) as P0.
  change (line initial, col initial) with (1, 1) in P0. rewrite <- P0 in B1.
  rewrite scan_app, H0, scan_cons, (fsa_COMMENT l0 _ S0). cbn [snd].
  rewrite Z.eqb_refl.
  match goal with
  | |- context [update_context ?l1 _] =>
      destruct (fits_update l1 ":" _ B1) as (l2 & U & B2 & C2 & S2 & _)
  end.
  rewrite U. fields. cbn [cnt state] in C2, S2.
  rewrite C0 in C2. change (size_t (cnt initial + 1)) with 1 in C2.
  destruct (update_context_bounds _ _ _ U) as [K1 K2].
  cbn [line col] in K1, K2.
  assert (K : snd (line l2, col l2) <= INT_MAX).
  { cbn [snd]. unfold INT_MAX in *. lia. }
  destruct (fits_digits ps tail _ V K B2) as [K3 B3].
  cbn [fst snd] in K3, B3.
  destruct (scan_record ps l2 S2 NE V K3)
    as (l3 & H3 & S3 & L3 & C3 & N3 & E3).
  rewrite H3. destruct T as [-> | (t & -> & A)].
  - exists l3. rewrite scan_nil. split; congruence.
  - rewrite scan_cons, (fsa_BYTE_END_other l3 _ S3 A). cbn [snd]. cbv zeta.
    rewrite E3, check_crc_mod, uint64_mod_256, Z, Z.eqb_refl.
    rewrite <- L3, <- C3 in B3.
    match goal with
    | |- context [update_context ?l4 _] =>
        destruct (fits_update l4 t [] B3) as (l5 & -> & _ & C5 & _)
    end.
    rewrite scan_nil. exists l5. split; [ reflexivity | ].
    rewrite C5. fields. congruence.
Qed.

Lemma well_formed_record_accepted_witness :
  check_file (text "hello:0102FD" ++ [newline]) = ReturnTrue.
Proof.
  apply (well_formed_record_accepted (text "hello")
           [("0", "1"); ("0", "2"); ("F", "D")]%char [newline]).
  - cbn. intros [H | [H | [H | [H | [H | []]]]]]; discriminate.
  - discriminate.
  - valid_pairs.
  - reflexivity.
  - right. exists newline. split; reflexivity.
  - reflexivity.
Defined.

(** C4: when the end of the stream is reached inside a record (after its
    [':'], after the first digit of a pair, or after a whole pair), the file
    is accepted: the sum of the unfinished record is not checked, whatever
    its value. *)
Theorem incomplete_record_accepted (file : list ascii) (l : Locals) :
  scan initial file = EndOfFile l ->
  state l = NEW_RECORD \/ state l = BYTE_START \/ state l = BYTE_END ->
  check_file file = ReturnTrue.
Proof.
  intros H S.
  assert (N : state l <> COMMENT) by (destruct S as [S | [S | S]]; congruence).
  apply (check_file_counted file l H).
  - intros ->. rewrite scan_nil in H. injection H as <-. now apply N.
  - destruct (well_formed_scan _ _ _ well_formed_initial H)
      as [(_ & _ & _ & C) _].
    specialize (C N). lia.
Qed.

Lemma incomplete_record_accepted_witness :
  check_file (text ":01FE") = ReturnTrue
  /\ (recordSum (mkLocals 1 6 254 1 1 BYTE_END)
      + byte (mkLocals 1 6 254 1 1 BYTE_END)) mod 256 <> 0.
Proof.
  split.
  - apply (incomplete_record_accepted (text ":01FE")
             (mkLocals 1 6 254 1 1 BYTE_END)).
    + reflexivity.
    + right. right. reflexivity.
  - vm_compute. discriminate.
Defined.

(** C5 (as stated) fails: when a letter that is no uppercase hexadecimal
    digit follows a pair, [recordSum] already includes the pending byte at
    the [return]. *)
Lemma sum_updated_before_lexical_error :
  let l := mkLocals 1 4 1 0 1 BYTE_END in
  scan initial (text ":01") = EndOfFile l
  /\ scan initial (text ":01G")
     = Returned (set_recordSum 1 l)
         (ErrorAt "Expected uppercase hex digit." 1 4 (chr "G"))
  /\ recordSum (set_recordSum 1 l) <> recordSum l.
Proof.
  intros l. split; [ reflexivity | ]. split; [ reflexivity | ].
  cbn. discriminate.
Qed.

(** C5 (amended): in [BYTE_END] a letter or digit that is no uppercase
    hexadecimal digit makes [check_file] fail with "Expected uppercase hex
    digit." at the position of that character, and at that moment
    [recordSum] has already been incremented by the pending byte. *)
Theorem letter_after_pair (pre rest : list ascii) (a : ascii) (l : Locals) :
  scan initial pre = EndOfFile l ->
  state l = BYTE_END ->
  isalnum (chr a) = true -> is_hex_char (chr a) = false ->
  scan initial (pre ++ a :: rest)
  = Returned (set_recordSum (uint64_t (recordSum l + byte l)) l)
      (ErrorAt "Expected uppercase hex digit." (line l) (col l) (chr a))
  /\ check_file (pre ++ a :: rest)
     = ReturnFalse
         (ErrorAt "Expected uppercase hex digit." (line l) (col l) (chr a)).
Proof.
  intros H S A V.
  pose proof (scan_BYTE_END_alnum pre rest a l H S A V) as E.
  split; [ exact E | ].
  unfold check_file. fold (scan initial (pre ++ a :: rest)). now rewrite E.
Qed.

Lemma letter_after_pair_witness :
  scan initial (text ":01G")
  = Returned (mkLocals 1 4 1 1 1 BYTE_END)
      (ErrorAt "Expected uppercase hex digit." 1 4 71)
  /\ check_file (text ":01G")
     = ReturnFalse (ErrorAt "Expected uppercase hex digit." 1 4 71).
Proof.
  apply (letter_after_pair (text ":01") [] "G"
           (mkLocals 1 4 1 0 1 BYTE_END)); reflexivity.
Defined.

(** C6 (as stated) fails: on a line of 2^32 characters [col++] overflows,
    so that [check_file] has no defined result; and where the overflow
    wraps around, [col] is 1 again at the end of the stream and the stream,
    which is not empty, is reported as an empty file. *)
Lemma empty_file_on_long_line :
  let file := repeat "x"%char (Z.to_nat 4294967296) in
  file <> []
  /\ check_file file = Undefined
  /\ check_file_wrap file = ReturnFalse EmptyFile.
Proof.
  cbv zeta.
  assert (E : Z.of_nat (Z.to_nat 4294967296) = 4294967296)
    by (apply Z2Nat.id; discriminate).
  split; [ | split ].
  - intros H. apply (f_equal (@length ascii)) in H.
    rewrite repeat_length in H. cbn [length] in H.
    apply (f_equal Z.of_nat) in H. rewrite E in H. discriminate H.
  - apply check_file_long_line. rewrite E. discriminate.
  - rewrite check_file_wrap_long_line, E. reflexivity.
Qed.

(** C6 (amended): for a stream whose positions fit in an [int],
    [check_file] reports "empty file." exactly when the stream has no
    character: the run is defined, and at the end of the stream the line
    and the column are both 1 exactly when no character was read. *)
Theorem empty_file_iff (file : list ascii) :
  positions_fit file = true ->
  (check_file file = ReturnFalse EmptyFile <-> file = [])
  /\ check_file file <> Undefined
  /\ (forall l, scan initial file = EndOfFile l ->
                (line l = 1 /\ col l = 1 <-> file = [])).
Proof.
  intros B.
  assert (P : forall l, scan initial file = EndOfFile l ->
                        (line l = 1 /\ col l = 1 <-> file = [])).
  { intros l H. split.
    - intros [L C]. destruct file as [ | a s]; [ reflexivity | ].
      destruct (well_formed_scan _ _ _ well_formed_initial H) as [_ M].
      assert (M' : moved l) by (apply M; discriminate).
      unfold moved in M'. lia.
    - intros ->. rewrite scan_nil in H. injection H as <-. auto. }
  pose proof (fits_no_overflow file initial B) as O.
  unfold check_file. fold (scan initial file).
  destruct (scan initial file) as [l | l e | | ] eqn:H; cbn [finish].
  - split; [ | split; [ | exact P ] ].
    + rewrite <- (P l eq_refl). unfold at_eof.
      destruct (Z.eqb_spec (line l) 1), (Z.eqb_spec (col l) 1); cbn [andb];
        (split; [ | intros [? ?] ]); try tauto; try contradiction;
        destruct (cnt l =? 0); discriminate.
    + unfold at_eof. destruct ((line l =? 1) && (col l =? 1));
        [ discriminate | ]. destruct (cnt l =? 0); discriminate.
  - split; [ | split; [ discriminate | exact P ] ].
    destruct (scan_returned _ _ _ _ H) as (m & ln & cl & v & ->).
    split; [ discriminate | ]. intros ->. rewrite scan_nil in H.
    discriminate.
  - split; [ | split; [ discriminate | exact P ] ].
    split; [ discriminate | ]. intros ->. rewrite scan_nil in H.
    discriminate.
  - now elim O.
Qed.

Lemma empty_file_iff_witness :
  (check_file (text "hello") = ReturnFalse EmptyFile <-> text "hello" = [])
  /\ check_file (text "hello") <> Undefined
  /\ (forall l, scan initial (text "hello") = EndOfFile l ->
                (line l = 1 /\ col l = 1 <-> text "hello" = [])).
Proof.
  apply (empty_file_iff (text "hello")). reflexivity.
Defined.

(** C7: a stream with at least one character and no [':'] makes [check_file]
    report "No record found." (the positions of the stream are taken to fit
    in an [int]); and that message is written exactly when the end of a
    stream that is not empty is reached with [cnt] equal to 0. *)
Theorem no_record_found (file : list ascii) :
  file <> [] -> ~ In ":"%char file ->
  positions_fit file = true ->
  check_file file = ReturnFalse NoRecordFound
  /\ (forall f,
        check_file f = ReturnFalse NoRecordFound
        <-> exists l, scan initial f = EndOfFile l /\ f <> [] /\ cnt l = 0).
Proof.
  intros N C B.
  assert (G : forall f l, scan initial f = EndOfFile l -> f <> [] ->
                          cnt l = 0 ->
                          check_file f = ReturnFalse NoRecordFound).
  { intros f l H NE Z. unfold check_file. fold (scan initial f). rewrite H.
    destruct (well_formed_scan _ _ _ well_formed_initial H) as [_ M].
    apply at_eof_no_record; auto. }
  split.
  - destruct (scan_comment file initial) as (l & H & _ & Z);
      [ reflexivity | assumption | exact B | ].
    apply (G file l H N). now rewrite Z.
  - intros f. split.
    + unfold check_file. fold (scan initial f).
      destruct (scan initial f) as [l | l e | | ] eqn:H; cbn [finish];
        try discriminate.
      * intros E. exists l. split; [ reflexivity | ].
        destruct f as [ | a s].
        { rewrite scan_nil in H. injection H as <-. discriminate. }
        split; [ discriminate | ].
        unfold at_eof in E.
        destruct ((line l =? 1) && (col l =? 1)); [ discriminate | ].
        destruct (Z.eqb_spec (cnt l) 0); [ assumption | discriminate ].
      * destruct (scan_returned _ _ _ _ H) as (m & ln & cl & v & ->).
        discriminate.
    + intros (l & H & NE & Z). now apply (G f l).
Qed.

Lemma no_record_found_witness :
  check_file (text "no record here") = ReturnFalse NoRecordFound.
Proof.
  refine (proj1 (no_record_found (text "no record here") _ _ _)).
  - discriminate.
  - cbn. intros H.
    repeat (destruct H as [H | H]; [ discriminate H | ]). exact H.
  - reflexivity.
Defined.

(** C8: [is_hex_char] holds exactly for ['0'..'9'] and ['A'..'F']; hence a
    lowercase letter ['a'..'f'] where a digit is expected (in [NEW_RECORD],
    [BYTE_START] or [BYTE_END]) makes [check_file] fail with "Expected
    uppercase hex digit.", with the line and the column of that letter in
    the text, counted from 1. *)
Theorem lowercase_digit_rejected (pre rest : list ascii) (a : ascii)
    (l : Locals) :
  scan initial pre = EndOfFile l ->
  state l = NEW_RECORD \/ state l = BYTE_START \/ state l = BYTE_END ->
  chr "a" <= chr a <= chr "f" ->
  (forall c, is_hex_char c = true
             <-> (chr "0" <= c <= chr "9" \/ chr "A" <= c <= chr "F"))
  /\ check_file (pre ++ a :: rest)
     = ReturnFalse
         (ErrorAt "Expected uppercase hex digit."
            (fst (position_of pre)) (snd (position_of pre)) (chr a)).
Proof.
  intros H S R. split; [ exact is_hex_char_spec | ].
  assert (V : is_hex_char (chr a) = false).
  { revert R. generalize (chr a). intros c R. ctype. }
  assert (A : isalnum (chr a) = true).
  { revert R. generalize (chr a). intros c R. ctype. }
  pose proof (scan_position _ _ _ H) as P.
  change (position_after (line initial, col initial) pre)
    with (position_of pre) in P.
  rewrite <- P. cbn [fst snd].
  unfold check_file. fold (scan initial (pre ++ a :: rest)).
  destruct S as [S | [S | S]].
  - rewrite scan_app, H, scan_cons, fsa_expecting_digit by auto.
    cbn [snd finish]. unfold log_error, uint8_t.
    now rewrite Z.mod_small by (pose proof (chr_range a); lia).
  - rewrite scan_app, H, scan_cons, fsa_expecting_digit by auto.
    cbn [snd finish]. unfold log_error, uint8_t.
    now rewrite Z.mod_small by (pose proof (chr_range a); lia).
  - now rewrite (scan_BYTE_END_alnum pre rest a l H S A V).
Qed.

Lemma lowercase_digit_rejected_witness :
  (forall c, is_hex_char c = true <-> (48 <= c <= 57 \/ 65 <= c <= 70))
  /\ check_file (text "x" ++ newline :: text ":0a00")
     = ReturnFalse (ErrorAt "Expected uppercase hex digit." 2 3 97).
Proof.
  apply (lowercase_digit_rejected (text "x" ++ newline :: text ":0")
           (text "00") "a" (mkLocals 2 3 0 0 1 BYTE_START)).
  - reflexivity.
  - right. left. reflexivity.
  - vm_compute. split; discriminate.
Defined.

(** C9: for every stream, each call of [hex_to_dec] during [check_file] has
    as its argument a character of the stream that [is_hex_char] accepts,
    one of ['0'..'9'] and ['A'..'F'], and returns the value of that digit,
    from 0 to 15; the call of [abort()] is never reached. *)
Theorem hex_to_dec_never_aborts (file : list ascii) :
  check_file file <> Aborted
  /\ Forall (fun c => exists a,
                 In a file /\ c = chr a
                 /\ is_valid_digit a /\ is_hex_char c = true
                 /\ hex_to_dec c = Some (digit_value a)
                 /\ 0 <= digit_value a <= 15)
       (hex_to_dec_calls file).
Proof.
  destruct (while_input_calls file initial) as [N F].
  pose proof (while_input_calls_in file initial) as G.
  split.
  - unfold check_file.
    destruct (snd (while_input initial file)); cbn [finish].
    + unfold at_eof.
      destruct ((line l =? 1) && (col l =? 1)); [ discriminate | ].
      destruct (cnt l =? 0); discriminate.
    + discriminate.
    + now elim N.
    + discriminate.
  - unfold hex_to_dec_calls. apply Forall_forall. intros c I.
    rewrite Forall_forall in F, G.
    destruct (G c I) as (a & Ia & ->). destruct (F _ I) as [V _].
    assert (D : is_valid_digit a) by now apply is_hex_char_spec.
    exists a. split; [ assumption | ]. split; [ reflexivity | ].
    split; [ assumption | ]. split; [ assumption | ].
    split; [ now apply hex_to_dec_valid | now apply digit_value_range ].
Qed.

(** C10: the line and the column of the "Wrong CRC." diagnostic are those of
    the character that closes the record: the same line as the [':'] of the
    record, and as many columns after it as the record has digits, plus
    one. *)
Theorem wrong_crc_position (pre : list ascii) (ps : list (ascii * ascii))
    (t : ascii) (rest : list ascii) (l : Locals) :
  scan initial (pre ++ [":"%char]) = EndOfFile l ->
  Forall valid_pair ps ->
  isalnum (chr t) = false ->
  byte_sum ps mod 256 <> 0 ->
  snd (position_of (pre ++ ":"%char :: digits ps)) <= INT_MAX ->
  let closing := position_of (pre ++ ":"%char :: digits ps) in
  (exists v,
     check_file (pre ++ ":"%char :: digits ps ++ t :: rest)
     = ReturnFalse (ErrorAt "Wrong CRC." (fst closing) (snd closing) v))
  /\ fst closing = fst (position_of pre)
  /\ snd closing = snd (position_of pre) + 1 + 2 * Z.of_nat (length ps).
Proof.
  intros H V A N B closing. split.
  - eexists. now apply (wrong_crc_diagnostic pre ps t rest l).
  - unfold closing, position_of.
    change (pre ++ ":"%char :: digits ps)
      with (pre ++ [":"%char] ++ digits ps).
    rewrite !position_after_app, position_after_digits by assumption.
    cbn. split; reflexivity.
Qed.

Lemma wrong_crc_position_witness :
  (exists v,
     check_file (text "ab" ++ newline :: text ":0000FF" ++ [newline])
     = ReturnFalse (ErrorAt "Wrong CRC." 2 8 v))
  /\ 2 = 2 /\ 8 = 1 + 1 + 2 * 3.
Proof.
  apply (wrong_crc_position (text "ab" ++ [newline])
           [("0", "0"); ("0", "0"); ("F", "F")]%char newline []
           (mkLocals 2 2 0 0 1 NEW_RECORD)).
  - reflexivity.
  - valid_pairs.
  - reflexivity.
  - vm_compute. discriminate.
  - vm_compute. discriminate.
Defined.

(** ** Further properties *)

(** *** The two functions on digits *)

(** X1: [hex_to_dec] reaches [abort()] exactly on the characters that
    [is_hex_char] rejects, among the values that a character can have: an
    [unsigned char] or [EOF]. *)
Theorem hex_to_dec_abort_iff (c : Z) :
  0 <= c <= 255 \/ c = EOF ->
  (hex_to_dec c = None <-> is_hex_char c = false).
Proof.
  intros _. split.
  - intros H. destruct (is_hex_char c) eqn:V; [ | reflexivity ].
    destruct (hex_to_dec_is_hex_char c V) as [v E]. congruence.
  - intros V. destruct (hex_to_dec c) as [v | ] eqn:E; [ | reflexivity ].
    assert (T : is_hex_char c = true); [ | congruence ].
    apply is_hex_char_spec. revert E. unfold hex_to_dec. char_values.
    rewrite !Z.geb_leb.
    destruct (Z.leb_spec 48 c), (Z.leb_spec c 57); cbn [andb];
      try (intros _; lia);
      destruct (Z.leb_spec 65 c), (Z.leb_spec c 70); cbn [andb];
      try (intros _; lia); discriminate.
Qed.

Lemma hex_to_dec_abort_iff_witness :
  hex_to_dec (chr "g") = None <-> is_hex_char (chr "g") = false.
Proof.
  apply (hex_to_dec_abort_iff (chr "g")). left. vm_compute.
  split; discriminate.
Defined.

(** X2: every value from 0 to 15 is the value of exactly one character. *)
Theorem hex_to_dec_unique_digit (v : Z) :
  0 <= v <= 15 ->
  exists c, hex_to_dec c = Some v
            /\ forall c', hex_to_dec c' = Some v -> c' = c.
Proof.
  intros R.
  assert (I : forall c, hex_to_dec c = Some v ->
                        c = if v <? 10 then 48 + v else 55 + v).
  { intros c. unfold hex_to_dec. char_values. rewrite !Z.geb_leb.
    destruct (Z.leb_spec 48 c), (Z.leb_spec c 57); cbn [andb];
      try (intros [= <-]; destruct (Z.ltb_spec (c - 48) 10); lia);
      destruct (Z.leb_spec 65 c), (Z.leb_spec c 70); cbn [andb];
      try (intros [= <-]; destruct (Z.ltb_spec (c - 65 + 10) 10); lia);
      discriminate. }
  exists (if v <? 10 then 48 + v else 55 + v). split; [ | exact I ].
  unfold hex_to_dec. char_values. rewrite !Z.geb_leb.
  destruct (Z.ltb_spec v 10).
  - destruct (Z.leb_spec 48 (48 + v)), (Z.leb_spec (48 + v) 57);
      cbn [andb]; try lia. f_equal. lia.
  - destruct (Z.leb_spec 48 (55 + v)), (Z.leb_spec (55 + v) 57);
      cbn [andb]; try lia;
      destruct (Z.leb_spec 65 (55 + v)), (Z.leb_spec (55 + v) 70);
      cbn [andb]; try lia; f_equal; lia.
Qed.

Lemma hex_to_dec_unique_digit_witness :
  exists c, hex_to_dec c = Some 11
            /\ forall c', hex_to_dec c' = Some 11 -> c' = c.
Proof.
  apply (hex_to_dec_unique_digit 11). lia.
Defined.

(** *** Diagnostics *)

(** A digit never makes the switch return. *)
Lemma fsa_digit_breaks (l l' : Locals) (c : Z) (t : list Z) (e : Stderr) :
  is_hex_char c = true -> fsa l c <> (t, Some (Return l' e)).
Proof.
  intros V. unfold fsa, bind, call_hex_to_dec, ret. rewrite V.
  destruct (state l); simpl;
    repeat match goal with
           | |- context [if ?b then _ else _] => destruct b; simpl
           | |- context [match hex_to_dec ?c with _ => _ end] =>
               destruct (hex_to_dec c); simpl
           end;
    discriminate.
Qed.

(** The two ways in which the switch returns. *)
Lemma fsa_return_cases (l l' : Locals) (c : Z) (t : list Z) (e : Stderr) :
  fsa l c = (t, Some (Return l' e)) ->
  (e = ErrorAt "Expected uppercase hex digit." (line l) (col l) (uint8_t c)
   /\ is_hex_char c = false)
  \/ (exists v, e = ErrorAt "Wrong CRC." (line l) (col l) v
                /\ isalnum c = false /\ 1 <= v <= 255).
Proof.
  destruct (is_hex_char c) eqn:V.
  { intros H. now apply fsa_digit_breaks in H. }
  destruct (state l) eqn:S.
  - rewrite (fsa_COMMENT l c S). discriminate.
  - rewrite fsa_expecting_digit by auto. intros [= <- <- <-]. left. auto.
  - rewrite fsa_expecting_digit by auto. intros [= <- <- <-]. left. auto.
  - destruct (isalnum c) eqn:A.
    + rewrite (fsa_BYTE_END_alnum l c S V A). intros [= <- <- <-]. left. auto.
    + rewrite (fsa_BYTE_END_other l c S A). cbv zeta.
      destruct (check_crc _) eqn:K; [ discriminate | ].
      intros [= <- <- <-]. right. eexists. split; [ reflexivity | ].
      split; [ reflexivity | ].
      rewrite uint8_int. rewrite check_crc_mod in K.
      apply Z.eqb_neq in K.
      pose proof (Z.mod_pos_bound (uint64_t (recordSum l + byte l)) 256).
      lia.
Qed.

(** A [return] inside the loop happens at a character of the stream, after
    the characters before it were read. *)
Lemma scan_returned_at (s : list ascii) (l l' : Locals) (e : Stderr) :
  scan l s = Returned l' e ->
  exists pre a rest l0,
    s = pre ++ a :: rest /\ scan l pre = EndOfFile l0
    /\ snd (fsa l0 (chr a)) = Some (Return l' e).
Proof.
  revert l. induction s as [ | a s IH]; intros l.
  - rewrite scan_nil. discriminate.
  - rewrite scan_cons.
    destruct (snd (fsa l (chr a))) as [[l1 | l1 e1] | ] eqn:F;
      try discriminate.
    + destruct (update_context l1 (chr a)) as [l2 | ] eqn:U;
        try discriminate.
      intros H. destruct (IH _ H) as (pre & b & rest & l0 & -> & H0 & F0).
      exists (a :: pre), b, rest, l0. split; [ reflexivity | ].
      split; [ | assumption ].
      rewrite scan_cons, F, U. assumption.
    + intros [= <- <-]. exists [], a, s, l. auto.
Qed.

Lemma check_file_returned (file : list ascii) (msg : string) (ln cl v : Z) :
  check_file file = ReturnFalse (ErrorAt msg ln cl v) ->
  exists l, scan initial file = Returned l (ErrorAt msg ln cl v).
Proof.
  unfold check_file. fold (scan initial file).
  destruct (scan initial file) as [l | l e | | ]; cbn [finish];
    try discriminate.
  - unfold at_eof. destruct ((line l =? 1) && (col l =? 1));
      [ discriminate | ]. destruct (cnt l =? 0); discriminate.
  - intros [= ->]. now exists l.
Qed.

(** X3: every diagnostic points at a character of the file, with the line
    and the column of that character counted from 1.  A lexical diagnostic
    shows that character, which is no uppercase hexadecimal digit; a
    checksum diagnostic stands at a character that is neither a letter nor
    a digit and shows a byte that is not zero.  There are no other
    messages with a position. *)
Theorem diagnostic_sound (file : list ascii) (msg : string) (ln cl v : Z) :
  check_file file = ReturnFalse (ErrorAt msg ln cl v) ->
  exists pre a rest,
    file = pre ++ a :: rest
    /\ (ln, cl) = position_of pre
    /\ ((msg = "Expected uppercase hex digit."%string /\ v = chr a
         /\ is_hex_char (chr a) = false)
        \/ (msg = "Wrong CRC."%string /\ isalnum (chr a) = false
            /\ 1 <= v <= 255)).
Proof.
  intros H. destruct (check_file_returned _ _ _ _ _ H) as [l R].
  destruct (scan_returned_at _ _ _ _ R) as (pre & a & rest & l0 & E & H0 & F).
  exists pre, a, rest. split; [ assumption | ].
  pose proof (scan_position _ _ _ H0) as P.
  change (position_after (line initial, col initial) pre)
    with (position_of pre) in P. rewrite <- P.
  destruct (fsa l0 (chr a)) as [t f] eqn:F0. cbn [snd] in F. subst f.
  destruct (fsa_return_cases _ _ _ _ _ F0) as [[E1 V] | (w & E1 & A & W)].
  - injection E1 as -> -> -> ->. split; [ reflexivity | ]. left.
    split; [ reflexivity | ]. split; [ | assumption ].
    unfold uint8_t. apply Z.mod_small. pose proof (chr_range a). lia.
  - injection E1 as -> -> -> ->. split; [ reflexivity | ]. right. auto.
Qed.

Lemma diagnostic_sound_witness :
  exists pre a rest,
    text ":0000FF" ++ [newline] = pre ++ a :: rest
    /\ (1, 8) = position_of pre
    /\ (("Wrong CRC."%string = "Expected uppercase hex digit."%string
         /\ 255 = chr a /\ is_hex_char (chr a) = false)
        \/ ("Wrong CRC."%string = "Wrong CRC."%string
            /\ isalnum (chr a) = false /\ 1 <= 255 <= 255)).
Proof.
  apply (diagnostic_sound (text ":0000FF" ++ [newline]) "Wrong CRC." 1 8 255).
  reflexivity.
Defined.

(** X4: [check_file] stops at the first diagnostic: the characters after
    the one that is reported are not looked at. *)
Theorem first_diagnostic_final (file more : list ascii) (msg : string)
    (ln cl v : Z) :
  check_file file = ReturnFalse (ErrorAt msg ln cl v) ->
  check_file (file ++ more) = ReturnFalse (ErrorAt msg ln cl v).
Proof.
  intros H. destruct (check_file_returned _ _ _ _ _ H) as [l R].
  unfold check_file. fold (scan initial (file ++ more)).
  now rewrite scan_app, R.
Qed.

Lemma first_diagnostic_final_witness :
  check_file (text ":0g" ++ text ":00000000")
  = ReturnFalse (ErrorAt "Expected uppercase hex digit." 1 3 103).
Proof.
  apply (first_diagnostic_final (text ":0g") (text ":00000000")).
  reflexivity.
Defined.

(** *** Defined behaviour *)

(** The loop reaches the end of a stream only if its positions fit. *)
Lemma scan_fits (s : list ascii) (l l' : Locals) :
  scan l s = EndOfFile l' -> fits (line l, col l) s = true.
Proof.
  revert l. induction s as [ | a s IH]; intros l; [ reflexivity | ].
  rewrite scan_cons.
  destruct (fsa l (chr a)) as [t [[l1 | l1 e] | ]] eqn:F; cbn [snd];
    try discriminate.
  destruct (update_context l1 (chr a)) as [l2 | ] eqn:U; try discriminate.
  intros H. apply IH in H.
  destruct (fsa_position _ _ _ _ F) as [P1 P2].
  pose proof (update_context_position _ _ _ U) as P.
  destruct (update_context_bounds _ _ _ U) as [B1 B2].
  cbn [fits fst snd]. rewrite <- P1, <- P2.
  destruct (Z.ltb_spec (col l1) INT_MAX); [ | lia ]. cbn [andb].
  destruct (Ascii.eqb a newline).
  - injection P as P3 P4. rewrite P3, P4 in H. rewrite H.
    destruct B2 as [[B2 _] | [B2 _]]; [ lia | ].
    destruct (Z.ltb_spec (line l1) INT_MAX); [ reflexivity | lia ].
  - injection P as P3 P4. now rewrite P3, P4 in H.
Qed.

(** X5: when the positions of the file fit in an [int], [check_file]
    returns [true] or [false]: it neither overflows [line] or [col] nor
    calls [abort()]. *)
Theorem check_file_returns (file : list ascii) :
  positions_fit file = true ->
  check_file file = ReturnTrue \/ exists e, check_file file = ReturnFalse e.
Proof.
  intros B. unfold check_file.
  pose proof (fits_no_overflow file initial B) as O.
  destruct (while_input_calls file initial) as [A _].
  unfold scan in O.
  destruct (snd (while_input initial file)) as [l | l e | | ];
    cbn [finish]; try congruence.
  - unfold at_eof. destruct ((line l =? 1) && (col l =? 1)); eauto.
    destruct (cnt l =? 0); eauto.
  - eauto.
Qed.

Lemma check_file_returns_witness :
  check_file (text "junk") = ReturnTrue
  \/ exists e, check_file (text "junk") = ReturnFalse e.
Proof.
  apply (check_file_returns (text "junk")). reflexivity.
Defined.

(** *** The record counter *)

(** [cnt] is still 0 at the end of the stream only if no [':'] was read. *)
Lemma cnt_zero (s : list ascii) (l l' : Locals) :
  well_formed l -> scan l s = EndOfFile l' -> cnt l' = 0 ->
  ~ In ":"%char s /\ cnt l = 0.
Proof.
  revert l. induction s as [ | a s IH]; intros l W.
  - rewrite scan_nil. intros [= <-] Z. auto.
  - rewrite scan_cons.
    destruct (fsa l (chr a)) as [t [[l1 | l1 e] | ]] eqn:F; cbn [snd];
      try discriminate.
    destruct (update_context l1 (chr a)) as [l2 | ] eqn:U; try discriminate.
    intros H Z. destruct (well_formed_step _ _ _ _ _ W F U) as [W2 _].
    destruct (IH _ W2 H Z) as [N Z2].
    destruct (update_context_fields _ _ _ U) as (C2 & _).
    destruct W as (WL & WC & WN & WS). unfold INT_MAX in *.
    assert (Z0 : cnt l = 0).
    { destruct (fsa_cnt _ _ _ _ F) as [[E _] | [E _]]; [ congruence | ].
      rewrite C2, E in Z2. unfold size_t in Z2.
      rewrite Z.mod_small in Z2 by lia. lia. }
    split; [ | assumption ].
    assert (S : state l = COMMENT).
    { destruct (state l) eqn:S; [ reflexivity | | | ];
        assert (1 <= cnt l) by (apply WS; discriminate); lia. }
    rewrite (fsa_COMMENT l _ S) in F.
    intros [I | I]; [ | now apply N ]. subst a.
    rewrite Z.eqb_refl in F. injection F as _ <-.
    cbn [cnt] in C2. rewrite C2, Z0 in Z2. discriminate.
Qed.

(** X6: "No record found." is written exactly for the files that are not
    empty, contain no [':'] and whose positions fit in an [int]. *)
Theorem no_record_iff (file : list ascii) :
  check_file file = ReturnFalse NoRecordFound
  <-> file <> [] /\ ~ In ":"%char file /\ positions_fit file = true.
Proof.
  unfold check_file. fold (scan initial file). split.
  - destruct (scan initial file) as [l | l e | | ] eqn:H; cbn [finish];
      try discriminate.
    + intros E. unfold at_eof in E.
      destruct file as [ | a s].
      { rewrite scan_nil in H. injection H as <-. discriminate. }
      split; [ discriminate | ].
      destruct ((line l =? 1) && (col l =? 1)); [ discriminate | ].
      destruct (Z.eqb_spec (cnt l) 0) as [Z | ]; [ | discriminate ].
      split.
      * now destruct (cnt_zero _ _ _ well_formed_initial H Z).
      * apply (scan_fits _ _ _ H).
    + destruct (scan_returned _ _ _ _ H) as (m & ln & cl & v & ->).
      discriminate.
  - intros (N & C & B).
    destruct (scan_comment file initial) as (l & H & _ & Z);
      [ reflexivity | assumption | exact B | ].
    rewrite H. cbn [finish].
    destruct (well_formed_scan _ _ _ well_formed_initial H) as [_ M].
    apply at_eof_no_record; auto.
Qed.

(** A file that is accepted contains a [':'], and its positions fit. *)
Lemma accepted_has_record_aux (file : list ascii) :
  check_file file = ReturnTrue ->
  In ":"%char file /\ positions_fit file = true.
Proof.
  unfold check_file. fold (scan initial file).
  destruct (scan initial file) as [l | l e | | ] eqn:H; cbn [finish];
    try discriminate.
  intros E. pose proof (scan_fits _ _ _ H) as B. split; [ | exact B ].
  destruct (in_dec ascii_dec ":"%char file) as [I | N]; [ assumption | ].
  destruct (scan_comment file initial) as (l0 & H0 & _ & Z);
    [ reflexivity | assumption | exact B | ].
  rewrite H in H0. injection H0 as <-.
  unfold at_eof in E. change (cnt initial) with 0 in Z. rewrite Z in E.
  destruct ((line l =? 1) && (col l =? 1)); discriminate.
Qed.

(** *** The position *)

Lemma position_after_line (s : list ascii) (p : Z * Z) :
  fst (position_after p s)
  = fst p + Z.of_nat (count_occ ascii_dec s newline).
Proof.
  revert p. induction s as [ | a s IH]; intros p.
  - cbn. lia.
  - cbn [position_after count_occ].
    destruct (Ascii.eqb_spec a newline) as [-> | N].
    + rewrite IH. destruct (ascii_dec newline newline); [ | congruence ].
      cbn [fst]. lia.
    + rewrite IH. destruct (ascii_dec a newline); [ congruence | ].
      reflexivity.
Qed.

Lemma position_after_column (s : list ascii) (p : Z * Z) :
  ~ In newline s ->
  snd (position_after p s) = snd p + Z.of_nat (length s).
Proof.
  revert p. induction s as [ | a s IH]; intros p N.
  - cbn. lia.
  - cbn [position_after length].
    destruct (Ascii.eqb_spec a newline) as [-> | _].
    + elim N. now left.
    + rewrite IH by (intros H; apply N; now right). cbn [snd]. lia.
Qed.

(** X7: when the end of the stream is reached, [line] is 1 plus the number
    of newlines read, and [col] is 1 plus the number of characters read
    after the last newline (after the start of the stream when there is no
    newline). *)
Theorem position_at_eof (file : list ascii) (l : Locals) :
  scan initial file = EndOfFile l ->
  line l = 1 + Z.of_nat (count_occ ascii_dec file newline)
  /\ (forall before last_line,
        file = before ++ newline :: last_line -> ~ In newline last_line ->
        col l = 1 + Z.of_nat (length last_line))
  /\ (~ In newline file -> col l = 1 + Z.of_nat (length file)).
Proof.
  intros H. pose proof (scan_position _ _ _ H) as P.
  change (line initial, col initial) with (1, 1) in P.
  assert (PL : line l = fst (position_after (1, 1) file)) by now rewrite <- P.
  assert (PC : col l = snd (position_after (1, 1) file)) by now rewrite <- P.
  split; [ | split ].
  - rewrite PL. apply position_after_line.
  - intros before last_line -> N. rewrite PC, position_after_app.
    cbn [position_after]. rewrite Ascii.eqb_refl.
    now rewrite position_after_column.
  - intros N. rewrite PC. now rewrite position_after_column.
Qed.

Lemma position_at_eof_witness :
  3 = 1 + Z.of_nat (count_occ ascii_dec
                      (text "ab" ++ newline :: newline :: text ":00")
                      newline)
  /\ (forall before last_line,
        text "ab" ++ newline :: newline :: text ":00"
        = before ++ newline :: last_line ->
        ~ In newline last_line ->
        4 = 1 + Z.of_nat (length last_line))
  /\ (~ In newline (text "ab" ++ newline :: newline :: text ":00") ->
      4 = 1 + Z.of_nat (length
                          (text "ab" ++ newline :: newline :: text ":00"))).
Proof.
  apply (position_at_eof (text "ab" ++ newline :: newline :: text ":00")
           (mkLocals 3 4 0 0 1 BYTE_END)).
  reflexivity.
Defined.

(** *** Files of several records *)

Lemma fits_app_l (s1 s2 : list ascii) (p : Z * Z) :
  fits p (s1 ++ s2) = true -> fits p s1 = true.
Proof.
  rewrite fits_app. intros H. now apply andb_prop in H.
Qed.

(** Reading a first part of the stream, then the rest. *)
Lemma scan_seq (s1 s2 : list ascii) (l l1 : Locals) :
  scan l s1 = EndOfFile l1 -> fits (line l, col l) (s1 ++ s2) = true ->
  scan l (s1 ++ s2) = scan l1 s2 /\ fits (line l1, col l1) s2 = true.
Proof.
  intros H F. rewrite scan_app, H. split; [ reflexivity | ].
  rewrite fits_app in F. apply andb_prop in F.
  now rewrite (scan_position _ _ _ H).
Qed.

(** A [':'] between two records opens the next one. *)
Lemma scan_open (l : Locals) :
  ready l -> fits (line l, col l) [":"%char] = true ->
  exists l', scan l [":"%char] = EndOfFile l' /\ state l' = NEW_RECORD.
Proof.
  intros R F. rewrite scan_cons. destruct R as [S | [S Z]].
  - rewrite (fsa_COMMENT l _ S). cbn [snd]. rewrite Z.eqb_refl.
    match goal with
    | |- context [update_context ?l1 _] =>
        destruct (fits_update l1 ":" [] F) as (l2 & -> & _ & _ & S2 & _)
    end.
    exists l2. now rewrite scan_nil.
  - rewrite (fsa_BYTE_END_other l _ S) by reflexivity. cbn [snd]. cbv zeta.
    rewrite check_crc_mod, Z, !Z.eqb_refl.
    match goal with
    | |- context [update_context ?l1 _] =>
        destruct (fits_update l1 ":" [] F) as (l2 & -> & _ & _ & S2 & _)
    end.
    exists l2. now rewrite scan_nil.
Qed.

(** The pairs of a record, up to the last one. *)
Lemma scan_pairs (ps : list (ascii * ascii)) (l : Locals) :
  state l = NEW_RECORD -> col l <= INT_MAX ->
  ps <> [] -> Forall valid_pair ps ->
  fits (line l, col l) (digits ps) = true ->
  exists l', scan l (digits ps) = EndOfFile l' /\ state l' = BYTE_END
             /\ cnt l' = cnt l
             /\ uint64_t (recordSum l' + byte l') = uint64_t (byte_sum ps).
Proof.
  intros S C N V F. rewrite <- (app_nil_r (digits ps)) in F.
  destruct (fits_digits ps [] (line l, col l) V C F) as [B _].
  cbn [snd] in B.
  destruct (scan_record ps l S N V B) as (l' & H & S' & _ & _ & C' & E').
  exists l'. specialize (H []). rewrite app_nil_r, scan_nil in H. auto.
Qed.

(** The text after a record whose sum is right. *)
Lemma scan_separator (sep : list ascii) (l : Locals) :
  state l = BYTE_END -> uint64_t (recordSum l + byte l) mod 256 = 0 ->
  separator sep -> fits (line l, col l) sep = true ->
  exists l', scan l sep = EndOfFile l' /\ ready l' /\ cnt l' = cnt l.
Proof.
  intros S Z [N A] F. destruct sep as [ | t junk].
  - exists l. rewrite scan_nil. split; [ reflexivity | ].
    split; [ right; auto | reflexivity ].
  - rewrite scan_cons, (fsa_BYTE_END_other l _ S A). cbn [snd]. cbv zeta.
    rewrite check_crc_mod, Z, Z.eqb_refl.
    assert (E : (chr t =? chr ":") = false).
    { apply Z.eqb_neq. intros E. apply N. left. symmetry. now apply chr_inj. }
    rewrite E.
    match goal with
    | |- context [update_context ?l1 _] =>
        destruct (fits_update l1 t junk F) as (l2 & -> & F2 & C2 & S2 & _)
    end.
    cbn [cnt state] in C2, S2.
    destruct (scan_comment junk l2 S2) as (l' & H & S' & C'); auto.
    { intros I. apply N. now right. }
    exists l'. split; [ assumption | ]. split; [ now left | congruence ].
Qed.

(** One record with its separating text. *)
Lemma scan_good_record (ps : list (ascii * ascii)) (sep : list ascii)
    (l : Locals) :
  ready l -> well_formed l -> good_record (ps, sep) ->
  fits (line l, col l) (":"%char :: digits ps ++ sep) = true ->
  exists l', scan l (":"%char :: digits ps ++ sep) = EndOfFile l'
             /\ ready l' /\ 1 <= cnt l'.
Proof.
  intros R W [(N & V & Z) P] F. cbn [fst snd] in N, V, Z, P.
  change (":"%char :: digits ps ++ sep)
    with ([":"%char] ++ digits ps ++ sep) in *.
  destruct (scan_open l R (fits_app_l _ _ _ F)) as (l1 & H1 & S1).
  destruct (scan_seq _ _ _ _ H1 F) as [-> F1].
  destruct (well_formed_scan _ _ _ W H1) as [(_ & WC & _ & WS) _].
  assert (N1 : 1 <= cnt l1) by (apply WS; congruence).
  destruct (scan_pairs ps l1 S1 (proj2 WC) N V (fits_app_l _ _ _ F1))
    as (l2 & H2 & S2 & C2 & E2).
  destruct (scan_seq _ _ _ _ H2 F1) as [-> F2].
  rewrite <- (uint64_mod_256 (byte_sum ps)), <- E2 in Z.
  destruct (scan_separator sep l2 S2 Z P F2) as (l3 & H3 & R3 & C3).
  exists l3. split; [ assumption | ]. split; [ assumption | ]. lia.
Qed.

(** A sequence of records. *)
Lemma scan_records (rs : list (list (ascii * ascii) * list ascii))
    (l : Locals) :
  ready l -> well_formed l -> Forall good_record rs ->
  fits (line l, col l) (records rs) = true ->
  exists l', scan l (records rs) = EndOfFile l' /\ ready l'
             /\ (rs <> [] -> 1 <= cnt l').
Proof.
  intros R W G. revert l R W.
  induction G as [ | [ps sep] rs G1 _ IH]; intros l R W F.
  - exists l. rewrite scan_nil. split; [ reflexivity | ].
    split; [ assumption | congruence ].
  - cbn [records] in *.
    replace (":"%char :: digits ps ++ sep ++ records rs)
      with ((":"%char :: digits ps ++ sep) ++ records rs) in *
      by (cbn [app]; now rewrite <- app_assoc).
    destruct (scan_good_record ps sep l R W G1 (fits_app_l _ _ _ F))
      as (l1 & H1 & R1 & N1).
    destruct (scan_seq _ _ _ _ H1 F) as [-> F1].
    destruct (well_formed_scan _ _ _ W H1) as [W1 _].
    destruct (IH l1 R1 W1 F1) as (l' & H' & R' & N').
    exists l'. split; [ assumption | ]. split; [ assumption | ]. intros _.
    destruct rs as [ | r rs]; [ | apply N'; discriminate ].
    cbn [records] in H'. rewrite scan_nil in H'. now injection H' as <-.
Qed.

(** The records of a file, after a text without [':']. *)
Lemma scan_file (pre : list ascii)
    (rs : list (list (ascii * ascii) * list ascii)) :
  ~ In ":"%char pre -> Forall good_record rs ->
  positions_fit (pre ++ records rs) = true ->
  exists l, scan initial (pre ++ records rs) = EndOfFile l /\ ready l
            /\ (rs <> [] -> 1 <= cnt l).
Proof.
  intros N G F. unfold positions_fit in F.
  change (1, 1) with (line initial, col initial) in F.
  destruct (scan_comment pre initial eq_refl N (fits_app_l _ _ _ F))
    as (l0 & H0 & S0 & _).
  destruct (scan_seq _ _ _ _ H0 F) as [-> F0].
  destruct (well_formed_scan _ _ _ well_formed_initial H0) as [W0 _].
  apply scan_records; auto. now left.
Qed.

(** X8: a file made of any text without [':'] and then one or more records,
    each with at least one pair of uppercase digits, a sum of 0 modulo 256
    and a separating text (empty, or starting with a character that is
    neither a letter nor a digit, and without [':']), is accepted. *)
Theorem records_accepted (pre : list ascii)
    (rs : list (list (ascii * ascii) * list ascii)) :
  ~ In ":"%char pre -> rs <> [] -> Forall good_record rs ->
  positions_fit (pre ++ records rs) = true ->
  check_file (pre ++ records rs) = ReturnTrue.
Proof.
  intros N NE G F. destruct (scan_file pre rs N G F) as (l & H & _ & C).
  apply (check_file_counted _ l H).
  - destruct rs as [ | [ps sep] rs]; [ congruence | ].
    destruct pre; discriminate.
  - specialize (C NE). lia.
Qed.

Lemma records_accepted_witness :
  check_file (text "two records" ++ newline
              :: text ":0102FD:00000001FF" ++ [newline])
  = ReturnTrue.
Proof.
  apply (records_accepted (text "two records" ++ [newline])
           [([("0", "1"); ("0", "2"); ("F", "D")]%char, []);
            ([("0", "0"); ("0", "0"); ("0", "0"); ("0", "1");
              ("F", "F")]%char, [newline])]).
  - cbn. intros H.
    repeat (destruct H as [H | H]; [ discriminate H | ]). exact H.
  - discriminate.
  - repeat apply Forall_cons; try apply Forall_nil.
    + split; [ split; [ discriminate | split; [ valid_pairs | reflexivity ] ]
             | split; [ intros [] | exact I ] ].
    + split; [ split; [ discriminate | split; [ valid_pairs | reflexivity ] ]
             | split; [ intros [H | []]; discriminate H | reflexivity ] ].
  - reflexivity.
Defined.

(** The position of a character is below [INT_MAX] when the positions
    fit. *)
Lemma fits_column (s r : list ascii) (a : ascii) (p : Z * Z) :
  fits p (s ++ a :: r) = true -> snd (position_after p s) < INT_MAX.
Proof.
  rewrite fits_app. intros F. apply andb_prop in F. destruct F as [_ F].
  cbn [fits] in F. apply andb_prop in F. destruct F as [F _].
  now apply Z.ltb_lt.
Qed.

(** A record with a wrong sum, after a part of the file that was read up to
    the end of a record or to a comment. *)
Lemma wrong_crc_after (pre : list ascii) (ps : list (ascii * ascii))
    (t : ascii) (rest : list ascii) (l0 : Locals) :
  scan initial pre = EndOfFile l0 -> ready l0 ->
  Forall valid_pair ps -> isalnum (chr t) = false ->
  byte_sum ps mod 256 <> 0 ->
  positions_fit (pre ++ ":"%char :: digits ps ++ [t]) = true ->
  check_file (pre ++ ":"%char :: digits ps ++ t :: rest) =
  ReturnFalse
    (ErrorAt "Wrong CRC."
       (fst (position_of (pre ++ ":"%char :: digits ps)))
       (snd (position_of (pre ++ ":"%char :: digits ps)))
       (byte_sum ps mod 256)).
Proof.
  intros H0 R V A N F. unfold positions_fit in F.
  assert (B : snd (position_of (pre ++ ":"%char :: digits ps)) < INT_MAX).
  { apply (fits_column _ [] t).
    rewrite <- app_assoc. exact F. }
  change (1, 1) with (line initial, col initial) in F.
  destruct (scan_seq _ _ _ _ H0 F) as [_ F0].
  change (":"%char :: digits ps ++ [t])
    with ([":"%char] ++ digits ps ++ [t]) in F0.
  destruct (scan_open l0 R (fits_app_l _ _ _ F0)) as (l1 & H1 & _).
  apply (wrong_crc_diagnostic pre ps t rest l1); auto.
  - now rewrite scan_app, H0.
  - lia.
Qed.

Lemma good_lines (rs : list (list (ascii * ascii))) :
  Forall good_pairs rs ->
  Forall good_record (map (fun ps => (ps, [newline])) rs).
Proof.
  intros G. induction G as [ | ps rs G _ IH]; [ constructor | ].
  cbn [map]. constructor; [ | assumption ].
  split; [ exact G | ]. split; [ | reflexivity ].
  intros [H | []]. discriminate H.
Qed.

Lemma position_hex_lines (rs : list (list (ascii * ascii))) (n : Z) :
  Forall good_pairs rs ->
  position_after (n, 1) (hex_lines rs) = (n + Z.of_nat (length rs), 1).
Proof.
  intros G. revert n. induction G as [ | ps rs (_ & V & _) _ IH]; intros n.
  - cbn. f_equal. lia.
  - unfold hex_lines in *. cbn [map records length].
    cbn [position_after]. change (Ascii.eqb ":" newline) with false.
    cbv iota. rewrite position_after_app.
    rewrite position_after_digits by assumption.
    cbn [app position_after fst snd]. rewrite Ascii.eqb_refl, IH.
    rewrite Nat2Z.inj_succ. f_equal. lia.
Qed.

(** X9: in a file with one record on each line, the first record whose
    bytes do not sum to 0 modulo 256 is reported with "Wrong CRC.", with
    its line number, the column after its last digit and the sum modulo
    256; what follows it is not read. *)
Theorem first_bad_line (good : list (list (ascii * ascii)))
    (bad : list (ascii * ascii)) (t : ascii) (rest : list ascii) :
  Forall good_pairs good ->
  Forall valid_pair bad -> byte_sum bad mod 256 <> 0 ->
  isalnum (chr t) = false ->
  positions_fit (hex_lines good ++ ":"%char :: digits bad ++ [t]) = true ->
  check_file (hex_lines good ++ ":"%char :: digits bad ++ t :: rest)
  = ReturnFalse
      (ErrorAt "Wrong CRC."
         (1 + Z.of_nat (length good)) (2 + 2 * Z.of_nat (length bad))
         (byte_sum bad mod 256)).
Proof.
  intros G V N A F.
  destruct (scan_file [] _ (fun H => H) (good_lines good G))
    as (l0 & H0 & R0 & _).
  { apply (fits_app_l _ _ _ F). }
  cbn [app] in H0. fold (hex_lines good) in H0.
  rewrite (wrong_crc_after _ _ _ _ l0 H0 R0 V A N F).
  change (hex_lines good ++ ":"%char :: digits bad)
    with (hex_lines good ++ [":"%char] ++ digits bad).
  unfold position_of.
  rewrite !position_after_app, (position_hex_lines good 1 G).
  rewrite position_after_digits by assumption.
  cbn [position_after fst snd]. change (Ascii.eqb ":" newline) with false.
  cbv iota. cbn [fst snd]. reflexivity.
Qed.

Lemma first_bad_line_witness :
  check_file (text ":0102FD" ++ newline :: text ":00000001FF" ++ newline
              :: text ":0102FE" ++ newline :: text "not read")
  = ReturnFalse (ErrorAt "Wrong CRC." 3 8 1).
Proof.
  apply (first_bad_line
           [[("0", "1"); ("0", "2"); ("F", "D")];
            [("0", "0"); ("0", "0"); ("0", "0"); ("0", "1"); ("F", "F")]]%char
           [("0", "1"); ("0", "2"); ("F", "E")]%char newline
           (text "not read")).
  - repeat apply Forall_cons; try apply Forall_nil;
      (split; [ discriminate | split; [ valid_pairs | reflexivity ] ]).
  - valid_pairs.
  - vm_compute. discriminate.
  - reflexivity.
  - reflexivity.
Defined.

(** *** The checksum byte *)

Lemma byte_sum_app (ps qs : list (ascii * ascii)) :
  byte_sum (ps ++ qs) = byte_sum ps + byte_sum qs.
Proof.
  induction ps as [ | p ps IH]; [ reflexivity | ].
  cbn [app byte_sum]. rewrite IH. lia.
Qed.

Lemma sum_zero_iff (s v : Z) :
  0 <= v <= 255 -> ((s + v) mod 256 = 0 <-> v = (- s) mod 256).
Proof.
  intros R. split; intros H; Z.div_mod_to_equations; lia.
Qed.

(** X10: a record that is followed by a character that is neither a letter
    nor a digit passes exactly when its last byte is the two's complement,
    modulo 256, of the sum of the bytes before it. *)
Theorem checksum_byte_rule (pre : list ascii) (qs : list (ascii * ascii))
    (p : ascii * ascii) (t : ascii) (junk : list ascii) :
  ~ In ":"%char pre -> Forall valid_pair qs -> valid_pair p ->
  isalnum (chr t) = false -> ~ In ":"%char (t :: junk) ->
  positions_fit (pre ++ ":"%char :: digits (qs ++ [p]) ++ t :: junk) = true ->
  check_file (pre ++ ":"%char :: digits (qs ++ [p]) ++ t :: junk)
  = ReturnTrue
  <-> pair_value p = (- byte_sum qs) mod 256.
Proof.
  intros NP VQ VP A NT F.
  assert (V : Forall valid_pair (qs ++ [p])).
  { apply Forall_app. split; [ assumption | now constructor ]. }
  rewrite <- (sum_zero_iff (byte_sum qs) (pair_value p))
    by (apply pair_value_range; assumption).
  replace (byte_sum qs + pair_value p) with (byte_sum (qs ++ [p]))
    by (rewrite byte_sum_app; cbn [byte_sum]; lia).
  split.
  - intros T.
    destruct (Z.eq_dec (byte_sum (qs ++ [p]) mod 256) 0) as [Z | N];
      [ assumption | ].
    unfold positions_fit in F.
    change (1, 1) with (line initial, col initial) in F.
    destruct (scan_comment pre initial eq_refl NP (fits_app_l _ _ _ F))
      as (l0 & H0 & S0 & _).
    rewrite (wrong_crc_after pre (qs ++ [p]) t junk l0 H0) in T;
      try assumption; [ discriminate | now left | ].
    unfold positions_fit.
    apply (fits_app_l _ junk).
    rewrite <- app_assoc. cbn [app]. rewrite <- app_assoc. exact F.
  - intros Z.
    assert (G : Forall good_record [(qs ++ [p], t :: junk)]).
    { constructor; [ | constructor ]. split; [ | split; assumption ].
      split; [ now destruct qs | split; assumption ]. }
    assert (E : records [(qs ++ [p], t :: junk)]
                = ":"%char :: digits (qs ++ [p]) ++ t :: junk).
    { cbn [records]. now rewrite app_nil_r. }
    rewrite <- E in *.
    destruct (scan_file pre _ NP G F) as (l & H & _ & C).
    apply (check_file_counted _ l H).
    + rewrite E. destruct pre; discriminate.
    + assert (1 <= cnt l) by (apply C; discriminate). lia.
Qed.

Lemma checksum_byte_rule_witness :
  check_file (text ":1002FFEF" ++ [newline]) = ReturnTrue
  <-> 239 = (- (16 + 2 + 255)) mod 256.
Proof.
  apply (checksum_byte_rule []
           [("1", "0"); ("0", "2"); ("F", "F")]%char ("E", "F")%char
           newline []).
  - intros [].
  - valid_pairs.
  - split; unfold is_valid_digit; cbn; lia.
  - reflexivity.
  - intros [H | []]. discriminate H.
  - reflexivity.
Defined.

(** *** Records that are not made of whole pairs *)

(** X11: a [':'] that is read without a message and is followed by a
    character that is no uppercase hexadecimal digit (a newline, a space,
    another [':'], a lowercase letter) is a lexical error at that
    character: a record has at least one digit. *)
Theorem empty_record_rejected (pre rest : list ascii) (t : ascii)
    (l : Locals) :
  scan initial (pre ++ [":"%char]) = EndOfFile l ->
  is_hex_char (chr t) = false ->
  check_file (pre ++ ":"%char :: t :: rest)
  = ReturnFalse
      (ErrorAt "Expected uppercase hex digit."
         (fst (position_of (pre ++ [":"%char])))
         (snd (position_of (pre ++ [":"%char]))) (chr t)).
Proof.
  intros H V. pose proof (scan_colon _ _ _ H) as S.
  pose proof (scan_position _ _ _ H) as P.
  change (position_after (line initial, col initial) (pre ++ [":"%char]))
    with (position_of (pre ++ [":"%char])) in P.
  rewrite <- P. cbn [fst snd]. unfold check_file.
  change (pre ++ ":"%char :: t :: rest)
    with (pre ++ [":"%char] ++ t :: rest).
  rewrite app_assoc. fold (scan initial ((pre ++ [":"%char]) ++ t :: rest)).
  rewrite scan_app, H, scan_cons, fsa_expecting_digit by auto.
  cbn [snd finish]. unfold log_error, uint8_t.
  now rewrite Z.mod_small by (pose proof (chr_range t); lia).
Qed.

Lemma empty_record_rejected_witness :
  check_file (text ":00000000:" ++ newline :: text ":00")
  = ReturnFalse (ErrorAt "Expected uppercase hex digit." 1 11 10).
Proof.
  apply (empty_record_rejected (text ":00000000") (text ":00") newline
           (mkLocals 1 11 0 0 1 NEW_RECORD)); reflexivity.
Defined.

(** X12: a record with an odd number of digits is a lexical error at the
    character after its last digit, whatever that character is, unless it
    is an uppercase hexadecimal digit. *)
Theorem odd_digits_rejected (pre rest : list ascii)
    (ps : list (ascii * ascii)) (h t : ascii) (l : Locals) :
  scan initial (pre ++ [":"%char]) = EndOfFile l ->
  Forall valid_pair ps -> is_valid_digit h ->
  is_hex_char (chr t) = false ->
  snd (position_of (pre ++ ":"%char :: digits ps ++ [h])) <= INT_MAX ->
  check_file (pre ++ ":"%char :: digits ps ++ h :: t :: rest)
  = ReturnFalse
      (ErrorAt "Expected uppercase hex digit."
         (fst (position_of (pre ++ ":"%char :: digits ps ++ [h])))
         (snd (position_of (pre ++ ":"%char :: digits ps ++ [h])))
         (chr t)).
Proof.
  intros H V VH VT B. pose proof (scan_colon _ _ _ H) as S.
  pose proof (scan_position _ _ _ H) as P.
  assert (Q : position_of (pre ++ ":"%char :: digits ps ++ [h])
              = (line l, col l + 2 * Z.of_nat (length ps) + 1)).
  { change (pre ++ ":"%char :: digits ps ++ [h])
      with (pre ++ [":"%char] ++ digits ps ++ [h]).
    rewrite app_assoc. unfold position_of. rewrite position_after_app.
    change (line initial, col initial) with (1, 1) in P. rewrite <- P.
    rewrite position_after_app, position_after_digits by assumption.
    cbn [position_after fst snd].
    now rewrite (valid_digit_eqb_newline h VH). }
  rewrite Q in *. cbn [fst snd] in *.
  assert (D : exists l2,
             (forall s, scan l (digits ps ++ s) = scan l2 s)
             /\ (state l2 = NEW_RECORD \/ state l2 = BYTE_END)
             /\ line l2 = line l
             /\ col l2 = col l + 2 * Z.of_nat (length ps)).
  { destruct ps as [ | q ps].
    - exists l. cbn [digits app length]. split; [ reflexivity | ].
      split; [ now left | ]. split; [ reflexivity | lia ].
    - destruct (scan_record (q :: ps) l S) as (l2 & R & S2 & L2 & C2 & _);
        [ discriminate | assumption | lia | ].
      exists l2. auto. }
  destruct D as (l2 & R & S2 & L2 & C2).
  unfold check_file.
  change (pre ++ ":"%char :: digits ps ++ h :: t :: rest)
    with (pre ++ [":"%char] ++ digits ps ++ h :: t :: rest).
  rewrite app_assoc.
  fold (scan initial ((pre ++ [":"%char]) ++ digits ps ++ h :: t :: rest)).
  rewrite scan_app, H, R, scan_cons.
  assert (E : exists b sum,
             fsa l2 (chr h)
             = ([chr h], Some (Break (mkLocals (line l2) (col l2) b sum
                                        (cnt l2) BYTE_START)))).
  { destruct S2 as [S2 | S2].
    - rewrite (fsa_NEW_RECORD_digit l2 h S2 VH). eauto.
    - rewrite (fsa_BYTE_END_digit l2 h S2 VH). eauto. }
  destruct E as (b & sum & ->). cbn [snd].
  rewrite (update_context_digit _ h VH) by (fields; lia). fields.
  rewrite scan_cons, fsa_expecting_digit by auto.
  cbn [snd finish]. fields. unfold log_error, uint8_t.
  rewrite Z.mod_small by (pose proof (chr_range t); lia).
  rewrite L2, C2. reflexivity.
Qed.

Lemma odd_digits_rejected_witness :
  check_file (text ":00F" ++ newline :: text ":00")
  = ReturnFalse (ErrorAt "Expected uppercase hex digit." 1 5 10).
Proof.
  apply (odd_digits_rejected [] (text ":00") [("0", "0")]%char "F" newline
           (mkLocals 1 2 0 0 1 NEW_RECORD)).
  - reflexivity.
  - valid_pairs.
  - unfold is_valid_digit. cbn. lia.
  - reflexivity.
  - vm_compute. discriminate.
Defined.

(** *** The program *)

(** X13: with at least the program name in [argv], and a file whose
    positions fit in an [int] when it can be opened, [main] returns 0 or
    1.  It returns 0 with nothing written to [stderr] exactly when there
    is one argument, the file can be opened and [check_file] accepts it;
    otherwise it returns 1 after one message. *)
Theorem main_exit_status (argv : list string)
    (fopen : string -> option (list ascii)) :
  argv <> [] ->
  (forall file, fopen (nth 1 argv EmptyString) = Some file ->
                positions_fit file = true) ->
  (main argv fopen = Returns 0 None
   /\ exists prog filename file,
        argv = [prog; filename] /\ fopen filename = Some file
        /\ check_file file = ReturnTrue)
  \/ (exists m, main argv fopen = Returns 1 (Some m)
                /\ forall prog filename file,
                     argv = [prog; filename] -> fopen filename = Some file ->
                     exists e, m = Logged e /\ check_file file = ReturnFalse e).
Proof.
  intros N F. destruct argv as [ | prog [ | filename [ | extra argv]]];
    [ congruence | | | ].
  - right. exists (Usage prog). split; [ reflexivity | discriminate ].
  - cbn [nth] in F. cbn [main].
    destruct (fopen filename) as [file | ] eqn:O.
    + destruct (check_file_returns file (F file eq_refl)) as [T | [e E]].
      * left. rewrite T. split; [ reflexivity | ].
        exists prog, filename, file. auto.
      * right. rewrite E. exists (Logged e). split; [ reflexivity | ].
        intros ? ? file' [= <- <-] O'. rewrite O in O'.
        injection O' as <-. eauto.
    + right. exists (Perror filename). split; [ reflexivity | ].
      intros ? ? file' [= <- <-] O'. congruence.
  - right. exists (Usage prog). split; [ reflexivity | discriminate ].
Qed.

Lemma main_exit_status_witness :
  (main ["hexcrc"; "a.hex"]%string
     (fun _ => Some (text ":00000001FF" ++ [newline]))
   = Returns 0 None
   /\ exists prog filename file,
        ["hexcrc"; "a.hex"]%string = [prog; filename]
        /\ Some (text ":00000001FF" ++ [newline]) = Some file
        /\ check_file file = ReturnTrue)
  \/ (exists m,
        main ["hexcrc"; "a.hex"]%string
          (fun _ => Some (text ":00000001FF" ++ [newline]))
        = Returns 1 (Some m)
        /\ forall prog filename file,
             ["hexcrc"; "a.hex"]%string = [prog; filename] ->
             Some (text ":00000001FF" ++ [newline]) = Some file ->
             exists e, m = Logged e /\ check_file file = ReturnFalse e).
Proof.
  apply (main_exit_status ["hexcrc"; "a.hex"]%string
           (fun _ => Some (text ":00000001FF" ++ [newline]))).
  - discriminate.
  - intros file [= <-]. reflexivity.
Defined.

(** *** The files that are accepted *)

Lemma records_app (rs1 rs2 : list (list (ascii * ascii) * list ascii)) :
  records (rs1 ++ rs2) = records rs1 ++ records rs2.
Proof.
  induction rs1 as [ | [ps sep] rs1 IH]; [ reflexivity | ].
  cbn [app records]. rewrite IH. now rewrite <- !app_assoc.
Qed.

Lemma records_one (ps : list (ascii * ascii)) (sep : list ascii) :
  records [(ps, sep)] = ":"%char :: digits ps ++ sep.
Proof.
  cbn [records]. now rewrite app_nil_r.
Qed.

Lemma digits_app (ps qs : list (ascii * ascii)) :
  digits (ps ++ qs) = digits ps ++ digits qs.
Proof.
  induction ps as [ | [h lo] ps IH]; [ reflexivity | ].
  cbn [app digits]. now rewrite IH.
Qed.

(** The last step of a run that reaches the end of the stream. *)
Lemma scan_snoc (s : list ascii) (a : ascii) (l0 l' : Locals) :
  scan l0 (s ++ [a]) = EndOfFile l' ->
  exists l l1 t,
    scan l0 s = EndOfFile l /\ fsa l (chr a) = (t, Some (Break l1))
    /\ update_context l1 (chr a) = Some l'.
Proof.
  rewrite scan_app. destruct (scan l0 s) as [l | | | ]; try discriminate.
  rewrite scan_cons.
  destruct (fsa l (chr a)) as [t [[l1 | l1 e] | ]] eqn:F; cbn [snd];
    try discriminate.
  destruct (update_context l1 (chr a)) as [l2 | ] eqn:U; try discriminate.
  rewrite scan_nil. intros [= <-]. exists l, l1, t. auto.
Qed.

Lemma valid_digit_of_hex_char (a : ascii) :
  is_hex_char (chr a) = true -> is_valid_digit a.
Proof.
  intros H. now apply is_hex_char_spec.
Qed.

(** One step of the automaton keeps the account of what was read. *)
Lemma parsed_step (s : list ascii) (a : ascii) (l l1 : Locals)
    (t : list Z) :
  parsed s (state l) (recordSum l) (byte l) ->
  fsa l (chr a) = (t, Some (Break l1)) ->
  parsed (s ++ [a]) (state l1) (recordSum l1) (byte l1).
Proof.
  intros (pre & rs & NP & G & P) F.
  destruct (state l) eqn:S.
  - (* COMMENT *)
    destruct P as [-> L]. rewrite (fsa_COMMENT l _ S) in F.
    destruct (Z.eqb_spec (chr a) (chr ":")) as [E | E].
    + apply chr_inj in E. subst a. injection F as _ <-. cbn [state].
      exists pre, rs. split; [ assumption | ]. split; [ assumption | ].
      now rewrite <- app_assoc.
    + injection F as _ <-. rewrite S.
      assert (NA : a <> ":"%char) by (intros ->; now apply E).
      destruct L as [-> | (rs0 & ps & t0 & junk & ->)].
      * exists (pre ++ [a]), []. split.
        { rewrite in_app_iff. intros [I | [I | []]]; [ now apply NP | ].
          now apply NA. }
        split; [ constructor | ]. split; [ | now left ].
        cbn [records]. now rewrite !app_nil_r.
      * exists pre, (rs0 ++ [(ps, t0 :: junk ++ [a])]).
        apply Forall_app in G. destruct G as [G0 G1].
        inversion G1 as [ | ? ? [GP [NS AS]] _]; subst.
        cbn [fst snd] in GP, NS, AS.
        split; [ assumption | ]. split.
        { apply Forall_app. split; [ assumption | ].
          constructor; [ | constructor ]. split; [ assumption | ].
          split; [ | exact AS ]. cbn [snd].
          change (t0 :: junk ++ [a]) with ((t0 :: junk) ++ [a]).
          rewrite in_app_iff. intros [I | [I | []]]; [ now apply NS | ].
          now apply NA. }
        split; [ | right; eauto ].
        rewrite !records_app, !records_one, <- !app_assoc.
        cbn [app]. now rewrite <- !app_assoc.
  - (* NEW_RECORD *)
    destruct (is_hex_char (chr a)) eqn:V.
    + apply valid_digit_of_hex_char in V.
      rewrite (fsa_NEW_RECORD_digit l a S V) in F. injection F as _ <-.
      cbn [state recordSum byte]. exists pre, rs.
      split; [ assumption | ]. split; [ assumption | ].
      exists [], a. cbn [digits app byte_sum]. rewrite P.
      split; [ now rewrite <- !app_assoc | ]. auto.
    + rewrite fsa_expecting_digit in F by auto. discriminate.
  - (* BYTE_START *)
    destruct P as (ps & h & -> & VP & VH & ES & EB).
    destruct (is_hex_char (chr a)) eqn:V.
    + apply valid_digit_of_hex_char in V.
      rewrite (fsa_BYTE_START_digit l a S V) in F. injection F as _ <-.
      cbn [state recordSum byte]. exists pre, rs.
      split; [ assumption | ]. split; [ assumption | ].
      exists (ps ++ [(h, a)]). split; [ | split; [ | split ] ].
      * rewrite digits_app. cbn [digits]. rewrite <- !app_assoc.
        cbn [app]. now rewrite <- !app_assoc.
      * now destruct ps.
      * apply Forall_app. split; [ assumption | ].
        constructor; [ split; assumption | constructor ].
      * rewrite EB, byte_of_nibbles
          by (apply digit_value_range; assumption).
        rewrite byte_sum_app. cbn [byte_sum]. rewrite Z.add_0_r.
        fold (pair_value (h, a)).
        rewrite <- uint64_add_l, ES, uint64_add_l. reflexivity.
    + rewrite fsa_expecting_digit in F by auto. discriminate.
  - (* BYTE_END *)
    destruct P as (ps & -> & NE & VP & ES).
    destruct (is_hex_char (chr a)) eqn:V.
    + apply valid_digit_of_hex_char in V.
      rewrite (fsa_BYTE_END_digit l a S V) in F. injection F as _ <-.
      cbn [state recordSum byte]. exists pre, rs.
      split; [ assumption | ]. split; [ assumption | ].
      exists ps, a. split; [ now rewrite <- !app_assoc | ].
      split; [ assumption | ]. split; [ assumption | ].
      split; [ | reflexivity ].
      rewrite <- ES. unfold uint64_t. now rewrite Z.mod_mod by lia.
    + destruct (isalnum (chr a)) eqn:A.
      { rewrite (fsa_BYTE_END_alnum l _ S V A) in F. discriminate. }
      rewrite (fsa_BYTE_END_other l _ S A) in F. cbv zeta in F.
      destruct (check_crc _) eqn:K; [ | discriminate ].
      rewrite ES, check_crc_mod, uint64_mod_256 in K.
      apply Z.eqb_eq in K.
      assert (GP : good_pairs ps) by (split; [ | split ]; assumption).
      destruct (Z.eqb_spec (chr a) (chr ":")) as [E | E].
      * apply chr_inj in E. subst a. injection F as _ <-. cbn [state].
        exists pre, (rs ++ [(ps, [])]). split; [ assumption | ]. split.
        { apply Forall_app. split; [ assumption | ].
          constructor; [ | constructor ]. split; [ assumption | ].
          split; [ intros [] | exact I ]. }
        rewrite records_app, records_one, app_nil_r, <- !app_assoc.
        reflexivity.
      * injection F as _ <-. cbn [state].
        assert (NA : a <> ":"%char) by (intros ->; now apply E).
        exists pre, (rs ++ [(ps, [a])]). split; [ assumption | ]. split.
        { apply Forall_app. split; [ assumption | ].
          constructor; [ | constructor ]. split; [ assumption | ].
          split; [ | exact A ]. intros [I | []]. now apply NA. }
        split; [ | right; eauto ].
        rewrite records_app, records_one, <- !app_assoc. reflexivity.
Qed.

Lemma parsed_scan (s : list ascii) (l : Locals) :
  scan initial s = EndOfFile l ->
  parsed s (state l) (recordSum l) (byte l).
Proof.
  revert l. induction s as [ | a s IH] using rev_ind; intros l H.
  - rewrite scan_nil in H. injection H as <-.
    exists [], []. split; [ intros [] | ]. split; [ constructor | ].
    cbn. auto.
  - destruct (scan_snoc _ _ _ _ H) as (l0 & l1 & t & H0 & F & U).
    destruct (update_context_fields _ _ _ U) as (_ & -> & -> & ->).
    apply (parsed_step s a l0 l1 t); auto.
Qed.

(** The first digit of a pair. *)
Lemma scan_digit (h : ascii) (l : Locals) :
  state l = NEW_RECORD \/ state l = BYTE_END -> is_valid_digit h ->
  fits (line l, col l) [h] = true ->
  exists l', scan l [h] = EndOfFile l' /\ state l' = BYTE_START.
Proof.
  intros S V F. rewrite scan_cons.
  assert (E : exists b sum,
             fsa l (chr h)
             = ([chr h], Some (Break (mkLocals (line l) (col l) b sum
                                        (cnt l) BYTE_START)))).
  { destruct S as [S | S].
    - rewrite (fsa_NEW_RECORD_digit l h S V). eauto.
    - rewrite (fsa_BYTE_END_digit l h S V). eauto. }
  destruct E as (b & sum & ->). cbn [snd].
  match goal with
  | |- context [update_context ?l1 _] =>
      destruct (fits_update l1 h [] F) as (l2 & -> & _ & _ & S2 & _)
  end.
  exists l2. now rewrite scan_nil.
Qed.

(** The start of a record at the end of the stream. *)
Lemma scan_unfinished (tail : list ascii) (l : Locals) :
  ready l -> well_formed l -> unfinished tail -> tail <> [] ->
  fits (line l, col l) tail = true ->
  exists l', scan l tail = EndOfFile l' /\ state l' <> COMMENT.
Proof.
  intros R W [-> | (ps & half & -> & V & HF)] N F; [ congruence | ].
  change (":"%char :: digits ps ++ half)
    with ([":"%char] ++ digits ps ++ half) in *.
  destruct (scan_open l R (fits_app_l _ _ _ F)) as (l1 & H1 & S1).
  destruct (scan_seq _ _ _ _ H1 F) as [-> F1].
  destruct (well_formed_scan _ _ _ W H1) as [(_ & WC & _) _].
  assert (D : exists l2, scan l1 (digits ps) = EndOfFile l2
                         /\ (state l2 = NEW_RECORD \/ state l2 = BYTE_END)).
  { destruct ps as [ | q ps].
    - exists l1. rewrite scan_nil. auto.
    - destruct (scan_pairs (q :: ps) l1 S1 (proj2 WC))
        as (l2 & H2 & S2 & _); try assumption; [ discriminate | | eauto ].
      apply (fits_app_l _ _ _ F1). }
  destruct D as (l2 & H2 & S2).
  destruct (scan_seq _ _ _ _ H2 F1) as [-> F2].
  destruct HF as [-> | (h & -> & VH)].
  - exists l2. rewrite scan_nil. split; [ reflexivity | ].
    destruct S2 as [-> | ->]; discriminate.
  - destruct (scan_digit h l2 S2 VH F2) as (l3 & H3 & S3).
    exists l3. split; [ assumption | ]. rewrite S3. discriminate.
Qed.

(** X14: [check_file] returns [true] exactly for the files that consist of
    a text without [':'], then records of one or more pairs of uppercase
    digits with a sum of 0 modulo 256, each followed by nothing or by a
    text without [':'] that starts with a character that is neither a
    letter nor a digit, then possibly the start of one more record (its
    [':'], whole pairs with any sum, possibly one more digit); with at
    least one [':'], and positions that fit in an [int]. *)
Theorem accepted_iff (file : list ascii) :
  check_file file = ReturnTrue
  <-> accepted_text file /\ positions_fit file = true.
Proof.
  split.
  - intros T. destruct (accepted_has_record_aux file T) as [I B].
    split; [ | exact B ].
    unfold check_file in T. fold (scan initial file) in T.
    destruct (scan initial file) as [l | l e | | ] eqn:H; cbn [finish] in T;
      try discriminate.
    destruct (parsed_scan _ _ H) as (pre & rs & NP & G & P).
    exists pre, rs. destruct (state l).
    + destruct P as [-> _]. exists []. rewrite app_nil_r.
      split; [ reflexivity | ]. split; [ assumption | ].
      split; [ assumption | ]. split; [ now left | ]. left. intros ->.
      cbn [records] in I. rewrite app_nil_r in I. now apply NP.
    + exists [":"%char]. split; [ assumption | ]. split; [ assumption | ].
      split; [ assumption | ]. split; [ | right; discriminate ].
      right. exists [], []. cbn. auto.
    + destruct P as (ps & h & -> & V & VH & _).
      exists (":"%char :: digits ps ++ [h]). split; [ reflexivity | ].
      split; [ assumption | ]. split; [ assumption | ].
      split; [ | right; discriminate ].
      right. exists ps, [h]. eauto 6.
    + destruct P as (ps & -> & _ & V & _).
      exists (":"%char :: digits ps). split; [ reflexivity | ].
      split; [ assumption | ]. split; [ assumption | ].
      split; [ | right; discriminate ].
      right. exists ps, []. rewrite app_nil_r. auto.
  - intros [(pre & rs & tail & -> & NP & G & U & NE) F].
    rewrite app_assoc in *. unfold positions_fit in F.
    destruct (scan_file pre rs NP G (fits_app_l _ _ _ F)) as (l & H & R & C).
    change (1, 1) with (line initial, col initial) in F.
    destruct (scan_seq _ _ _ _ H F) as [E F1].
    destruct (well_formed_scan _ _ _ well_formed_initial H) as [W _].
    assert (N : (pre ++ records rs) ++ tail <> []).
    { destruct NE as [NE | NE].
      - destruct rs as [ | [ps sep] rs]; [ congruence | ].
        destruct pre; discriminate.
      - destruct tail; [ congruence | ].
        destruct (pre ++ records rs); discriminate. }
    destruct tail as [ | a tail].
    + rewrite scan_nil in E. apply (check_file_counted _ l E N).
      destruct NE as [NE | NE]; [ | congruence ].
      specialize (C NE). lia.
    + destruct (scan_unfinished (a :: tail) l R W U) as (l' & H' & S');
        [ discriminate | assumption | ].
      rewrite H' in E. apply (check_file_counted _ l' E N).
      destruct (well_formed_scan _ _ _ well_formed_initial E)
        as [(_ & _ & _ & K) _].
      specialize (K S'). lia.
Qed.

(** *** The files that are rejected with a position *)

(** The part of a record that was read, from its [':']. *)
Lemma scan_start (ps : list (ascii * ascii)) (half : list ascii)
    (l : Locals) :
  ready l -> well_formed l -> Forall valid_pair ps ->
  half = [] \/ (exists h, half = [h] /\ is_valid_digit h) ->
  fits (line l, col l) (":"%char :: digits ps ++ half) = true ->
  exists l',
    scan l (":"%char :: digits ps ++ half) = EndOfFile l'
    /\ ((state l' = NEW_RECORD /\ ps = [] /\ half = [])
        \/ (state l' = BYTE_START /\ half <> [])
        \/ (state l' = BYTE_END /\ half = [] /\ ps <> []
            /\ uint64_t (recordSum l' + byte l')
               = uint64_t (byte_sum ps))).
Proof.
  intros R W V HF F.
  change (":"%char :: digits ps ++ half)
    with ([":"%char] ++ digits ps ++ half) in *.
  destruct (scan_open l R (fits_app_l _ _ _ F)) as (l1 & H1 & S1).
  destruct (scan_seq _ _ _ _ H1 F) as [-> F1].
  destruct (well_formed_scan _ _ _ W H1) as [(_ & WC & _) _].
  assert (D : exists l2,
             scan l1 (digits ps) = EndOfFile l2
             /\ ((state l2 = NEW_RECORD /\ ps = [])
                 \/ (state l2 = BYTE_END /\ ps <> []
                     /\ uint64_t (recordSum l2 + byte l2)
                        = uint64_t (byte_sum ps)))).
  { destruct ps as [ | q ps].
    - exists l1. rewrite scan_nil. auto.
    - destruct (scan_pairs (q :: ps) l1 S1 (proj2 WC))
        as (l2 & H2 & S2 & _ & E2); try assumption; [ discriminate | | ].
      + apply (fits_app_l _ _ _ F1).
      + exists l2. split; [ assumption | ]. right.
        split; [ assumption | ]. split; [ discriminate | assumption ]. }
  destruct D as (l2 & H2 & S2).
  destruct (scan_seq _ _ _ _ H2 F1) as [-> F2].
  destruct HF as [-> | (h & -> & VH)].
  - exists l2. rewrite scan_nil. split; [ reflexivity | ].
    destruct S2 as [[S2 ->] | (S2 & N2 & E2)]; [ left | right; right ]; auto.
  - destruct (scan_digit h l2) as (l3 & H3 & S3); try assumption.
    { destruct S2 as [[S2 _] | [S2 _]]; auto. }
    exists l3. split; [ assumption | ]. right. left.
    split; [ assumption | discriminate ].
Qed.

(** The whole text before the character that is reported. *)
Lemma scan_before (pre : list ascii)
    (rs : list (list (ascii * ascii) * list ascii))
    (ps : list (ascii * ascii)) (half : list ascii) :
  ~ In ":"%char pre -> Forall good_record rs -> Forall valid_pair ps ->
  half = [] \/ (exists h, half = [h] /\ is_valid_digit h) ->
  positions_fit (pre ++ records rs ++ ":"%char :: digits ps ++ half) = true ->
  exists l',
    scan initial (pre ++ records rs ++ ":"%char :: digits ps ++ half)
    = EndOfFile l'
    /\ ((state l' = NEW_RECORD /\ ps = [] /\ half = [])
        \/ (state l' = BYTE_START /\ half <> [])
        \/ (state l' = BYTE_END /\ half = [] /\ ps <> []
            /\ uint64_t (recordSum l' + byte l')
               = uint64_t (byte_sum ps))).
Proof.
  intros NP G V HF F. rewrite app_assoc in *. unfold positions_fit in F.
  destruct (scan_file pre rs NP G (fits_app_l _ _ _ F)) as (l & H & R & _).
  change (1, 1) with (line initial, col initial) in F.
  destruct (scan_seq _ _ _ _ H F) as [-> F1].
  destruct (well_formed_scan _ _ _ well_formed_initial H) as [W _].
  now apply scan_start.
Qed.

(** How the switch returns with each message. *)
Lemma fsa_return_crc (l l' : Locals) (c : Z) (t : list Z) (ln cl v : Z) :
  fsa l c = (t, Some (Return l' (ErrorAt "Wrong CRC." ln cl v))) ->
  state l = BYTE_END /\ isalnum c = false
  /\ v = uint64_t (recordSum l + byte l) mod 256 /\ v <> 0
  /\ ln = line l /\ cl = col l.
Proof.
  destruct (is_hex_char c) eqn:V.
  { intros H. now apply fsa_digit_breaks in H. }
  destruct (state l) eqn:S.
  - rewrite (fsa_COMMENT l c S). discriminate.
  - rewrite fsa_expecting_digit by auto. discriminate.
  - rewrite fsa_expecting_digit by auto. discriminate.
  - destruct (isalnum c) eqn:A.
    + rewrite (fsa_BYTE_END_alnum l c S V A). discriminate.
    + rewrite (fsa_BYTE_END_other l c S A). cbv zeta.
      destruct (check_crc _) eqn:K; [ discriminate | ].
      unfold log_error. rewrite uint8_int. intros [= _ _ <- <- <-].
      rewrite check_crc_mod in K. apply Z.eqb_neq in K.
      repeat (split; [ reflexivity || assumption | ]). reflexivity.
Qed.

Lemma fsa_return_lexical (l l' : Locals) (c : Z) (t : list Z)
    (ln cl v : Z) :
  fsa l c
  = (t, Some (Return l' (ErrorAt "Expected uppercase hex digit." ln cl v))) ->
  is_hex_char c = false /\ state l <> COMMENT
  /\ (state l = BYTE_END -> isalnum c = true)
  /\ v = uint8_t c /\ ln = line l /\ cl = col l.
Proof.
  destruct (is_hex_char c) eqn:V.
  { intros H. now apply fsa_digit_breaks in H. }
  destruct (state l) eqn:S.
  - rewrite (fsa_COMMENT l c S). discriminate.
  - rewrite fsa_expecting_digit by auto. unfold log_error.
    intros [= _ _ <- <- <-]. repeat split; discriminate.
  - rewrite fsa_expecting_digit by auto. unfold log_error.
    intros [= _ _ <- <- <-]. repeat split; discriminate.
  - destruct (isalnum c) eqn:A.
    + rewrite (fsa_BYTE_END_alnum l c S V A). unfold log_error.
      intros [= _ _ <- <- <-]. repeat split; discriminate.
    + rewrite (fsa_BYTE_END_other l c S A). cbv zeta.
      destruct (check_crc _); discriminate.
Qed.

Lemma uint8_chr (a : ascii) : uint8_t (chr a) = chr a.
Proof.
  unfold uint8_t. apply Z.mod_small. pose proof (chr_range a). lia.
Qed.

(** X15: "Wrong CRC." is written exactly when the file starts with a text
    without [':'] and records with a right sum, followed by a record of
    pairs of uppercase digits whose bytes do not sum to 0 modulo 256 and
    then a character that is neither a letter nor a digit.  The line and
    the column are those of that character and the byte shown is the sum
    modulo 256.  Only the positions before that character have to fit in
    an [int], and what follows it is free. *)
Theorem wrong_crc_iff (file : list ascii) (ln cl v : Z) :
  check_file file = ReturnFalse (ErrorAt "Wrong CRC." ln cl v)
  <-> exists pre rs ps t rest,
        let before := pre ++ records rs ++ ":"%char :: digits ps in
        file = before ++ t :: rest
        /\ ~ In ":"%char pre /\ Forall good_record rs
        /\ Forall valid_pair ps /\ isalnum (chr t) = false
        /\ byte_sum ps mod 256 <> 0 /\ v = byte_sum ps mod 256
        /\ (ln, cl) = position_of before
        /\ positions_fit before = true.
Proof.
  split.
  - intros H. destruct (check_file_returned _ _ _ _ _ H) as [l R].
    destruct (scan_returned_at _ _ _ _ R)
      as (s & a & rest & l0 & -> & H0 & F).
    destruct (fsa l0 (chr a)) as [t f] eqn:F0. cbn [snd] in F. subst f.
    destruct (fsa_return_crc _ _ _ _ _ _ _ F0) as (S & A & -> & N & -> & ->).
    destruct (parsed_scan _ _ H0) as (pre & rs & NP & G & P).
    rewrite S in P. destruct P as (ps & -> & _ & V & E).
    rewrite E, uint64_mod_256 in N |- *.
    exists pre, rs, ps, a, rest. cbv zeta.
    rewrite <- !app_assoc. split; [ reflexivity | ].
    rewrite !app_assoc in H0 |- *. rewrite <- (app_assoc pre) in H0 |- *.
    repeat (split; [ assumption || reflexivity | ]).
    split; [ exact (scan_position _ _ _ H0) | exact (scan_fits _ _ _ H0) ].
  - intros (pre & rs & ps & t & rest & E & NP & G & V & A & N & -> & P & F).
    cbv zeta in *. subst file.
    rewrite <- (app_nil_r (digits ps)) in F, P |- * at 1.
    destruct (scan_before pre rs ps [] NP G V (or_introl eq_refl) F)
      as (l & H & [(_ & -> & _) | [(_ & K) | (S & _ & _ & ES)]]);
      [ now elim N | now elim K | ].
    pose proof (scan_position _ _ _ H) as Q.
    change (position_after (line initial, col initial)) with position_of in Q.
    rewrite <- Q in P. injection P as -> ->.
    unfold check_file.
    match goal with
    | |- finish (snd (while_input initial ?f)) = _ => fold (scan initial f)
    end.
    rewrite scan_app, H, scan_cons, (fsa_BYTE_END_other l _ S A).
    cbn [snd]. cbv zeta. rewrite ES, check_crc_mod, uint64_mod_256.
    destruct (Z.eqb_spec (byte_sum ps mod 256) 0); [ contradiction | ].
    cbn [finish]. unfold log_error.
    now rewrite uint8_int, uint64_mod_256.
Qed.

(** X16: "Expected uppercase hex digit." is written exactly when the file
    starts with a text without [':'] and records with a right sum,
    followed by [':'], pairs of uppercase digits, possibly one more digit,
    and then a character that is no uppercase hexadecimal digit; after a
    whole pair that character is a letter or a digit (otherwise it would
    end the record).  The line and the column are those of that
    character, which is the one shown. *)
Theorem lexical_error_iff (file : list ascii) (ln cl v : Z) :
  check_file file
  = ReturnFalse (ErrorAt "Expected uppercase hex digit." ln cl v)
  <-> exists pre rs ps half t rest,
        let before := pre ++ records rs ++ ":"%char :: digits ps ++ half in
        file = before ++ t :: rest
        /\ ~ In ":"%char pre /\ Forall good_record rs
        /\ Forall valid_pair ps
        /\ (half = [] \/ exists h, half = [h] /\ is_valid_digit h)
        /\ is_hex_char (chr t) = false
        /\ (half = [] -> ps <> [] -> isalnum (chr t) = true)
        /\ v = chr t
        /\ (ln, cl) = position_of before
        /\ positions_fit before = true.
Proof.
  split.
  - intros H. destruct (check_file_returned _ _ _ _ _ H) as [l R].
    destruct (scan_returned_at _ _ _ _ R)
      as (s & a & rest & l0 & -> & H0 & F).
    destruct (fsa l0 (chr a)) as [t f] eqn:F0. cbn [snd] in F. subst f.
    destruct (fsa_return_lexical _ _ _ _ _ _ _ F0)
      as (V & S & A & -> & -> & ->).
    pose proof (scan_position _ _ _ H0) as Q.
    pose proof (scan_fits _ _ _ H0) as B.
    destruct (parsed_scan _ _ H0) as (pre & rs & NP & G & P).
    exists pre, rs. destruct (state l0) eqn:S0; [ now elim S | | | ].
    + subst s. exists [], [], a, rest. cbv zeta. cbn [digits app].
      split; [ reflexivity | ]. split; [ exact NP | ]. split; [ exact G | ].
      split; [ constructor | ]. split; [ now left | ]. split; [ exact V | ].
      split; [ congruence | ]. split; [ apply uint8_chr | ].
      split; [ exact Q | exact B ].
    + destruct P as (ps & h & -> & VP & VH & _).
      exists ps, [h], a, rest. cbv zeta.
      split; [ reflexivity | ]. split; [ exact NP | ]. split; [ exact G | ].
      split; [ exact VP | ]. split; [ right; eauto | ]. split; [ exact V | ].
      split; [ discriminate | ]. split; [ apply uint8_chr | ].
      split; [ exact Q | exact B ].
    + destruct P as (ps & -> & NE & VP & _).
      exists ps, [], a, rest. cbv zeta. rewrite app_nil_r.
      split; [ reflexivity | ]. split; [ exact NP | ]. split; [ exact G | ].
      split; [ exact VP | ]. split; [ now left | ]. split; [ exact V | ].
      split; [ auto | ]. split; [ apply uint8_chr | ].
      split; [ exact Q | exact B ].
  - intros (pre & rs & ps & half & t & rest & E & NP & G & V & HF & VT & A
            & -> & P & F).
    cbv zeta in *. subst file.
    destruct (scan_before pre rs ps half NP G V HF F) as (l & H & S).
    pose proof (scan_position _ _ _ H) as Q.
    change (position_after (line initial, col initial)) with position_of in Q.
    rewrite <- Q in P. injection P as -> ->.
    unfold check_file.
    match goal with
    | |- finish (snd (while_input initial ?f)) = _ => fold (scan initial f)
    end.
    rewrite scan_app, H, scan_cons.
    destruct S as [(S & _) | [(S & _) | (S & -> & N & _)]].
    + rewrite fsa_expecting_digit by auto. cbn [snd finish].
      unfold log_error. now rewrite uint8_chr.
    + rewrite fsa_expecting_digit by auto. cbn [snd finish].
      unfold log_error. now rewrite uint8_chr.
    + rewrite (fsa_BYTE_END_alnum l _ S VT (A eq_refl N)).
      cbn [snd finish]. unfold log_error. now rewrite uint8_chr.
Qed.
